(** * QuantDash: the three calculators of [src/app/page.tsx] and [utils/finance.ts]

    A shallow embedding of the Black-Scholes pricer, the Monte Carlo simulator
    and the portfolio rebalancer, with the properties the specification
    states about them.

    Numbers.  A JavaScript [number] is modelled as a real number and the
    [Math.*] functions as their mathematical counterparts ([Math.exp] is
    [exp], [Math.log] is [ln], [Math.sqrt] is [sqrt], [Math.floor] is
    [Int_part]).  The model is the exact-arithmetic reading of the code:
    rounding, overflow and NaN are outside it.  Every concrete input used as
    a counterexample below is one on which the source takes the same branches
    in binary64 arithmetic.

    After the three calculators come the page's price chart, its pie charts
    and the three edits of the asset list, and further properties of all of
    them. *)

From Stdlib Require Import Reals Lra Lia ZArith String Bool Arith List.
From Stdlib Require Import Permutation Sorted.
Import ListNotations.

Open Scope R_scope.

(** ** Completions

    None of the three calculators contains a [throw]; they only call
    [Math.*] functions and array methods with callbacks that do not throw.
    [completion] records how a call ends so that this can be stated. *)

Inductive error : Type :=
  | InvalidParameter (field : string) (value : R).

Inductive completion (A : Type) : Type :=
  | Normal (a : A)
  | Throw (e : error).

Arguments Normal {A} a.
Arguments Throw {A} e.

(** The sum of a sequence of numbers, as the specification writes it. *)
Fixpoint sumR (l : list R) : R :=
  match l with
  | [] => 0
  | x :: l' => x + sumR l'
  end.

(** ** Analytic pricer ([utils/finance.ts]) *)

Module BlackScholes.

Record BlackScholesResult : Type := mkResult {
  callPrice : R;
  putPrice : R;
  delta : R;
  gamma : R;
  theta : R;
  vega : R;
  rho : R
}.

(** The polynomial part of [normalCDF], [prob] without its sign case. *)
Definition tailProb (x : R) : R :=
  let t := 1 / (1 + 0.2316419 * Rabs x) in
  let d := 0.3989423 * exp (- x * x / 2) in
  d * t * (0.3193815 + t * (-0.3565638 + t * (1.781478 + t * (-1.821256 + t * 1.330274)))).

Definition normalCDF (x : R) : R :=
  let prob := tailProb x in
  if Rlt_dec 0 x then 1 - prob else prob.

Definition normalPDF (x : R) : R :=
  exp (-0.5 * x * x) / sqrt (2 * PI).

Definition d1_of (S K T r sigma : R) : R :=
  (ln (S / K) + (r + 0.5 * sigma * sigma) * T) / (sigma * sqrt T).

Definition d2_of (S K T r sigma : R) : R :=
  d1_of S K T r sigma - sigma * sqrt T.

Definition calculateBlackScholes (S K T r sigma : R) : BlackScholesResult :=
  let d1 := d1_of S K T r sigma in
  let d2 := d1 - sigma * sqrt T in
  let Nd1 := normalCDF d1 in
  let Nd2 := normalCDF d2 in
  let Nmd1 := normalCDF (- d1) in
  let Nmd2 := normalCDF (- d2) in
  let nd1 := normalPDF d1 in
  let callPrice := S * Nd1 - K * exp (- r * T) * Nd2 in
  let putPrice := K * exp (- r * T) * Nmd2 - S * Nmd1 in
  let delta := Nd1 in
  let gamma := nd1 / (S * sigma * sqrt T) in
  let theta := - (S * nd1 * sigma) / (2 * sqrt T) - r * K * exp (- r * T) * Nd2 in
  let vega := S * nd1 * sqrt T in
  let rho := K * T * exp (- r * T) * Nd2 in
  mkResult callPrice putPrice delta gamma (theta / 365) (vega / 100) (rho / 100).

(** How a call of the pricer ends: the body has no guard and no [throw]. *)
Definition priceOption (S K T r sigma : R) : completion BlackScholesResult :=
  Normal (calculateBlackScholes S K T r sigma).

(** The inputs the specification calls valid. *)
Definition valid (S K T sigma : R) : Prop :=
  0 < S /\ 0 < K /\ 0 < T /\ 0 < sigma.

(** What put-call parity leaves over: [callPrice - putPrice - (S - K e^(-rT))]. *)
Definition parityGap (S K T r sigma : R) : R :=
  let res := calculateBlackScholes S K T r sigma in
  callPrice res - putPrice res - (S - K * exp (- r * T)).

End BlackScholes.

(** ** Rebalancing allocator ([calculations] in [src/app/page.tsx]) *)

Module Rebalancer.

Record Asset : Type := mkAsset {
  id : string;
  name : string;
  currentValue : R;
  targetAllocation : R
}.

Inductive Action : Type := BUY | SELL | HOLD.

(** One element of [actions]: the asset's own fields ([...asset]) and the
    three computed ones. *)
Record RebalanceAction : Type := mkAction {
  asset : Asset;
  targetValue : R;
  delta : R;
  action : Action
}.

Record RebalanceReport : Type := mkReport {
  totalValue : R;
  totalAllocation : R;
  isValid : bool;
  actions : list RebalanceAction;
  actionableItems : list RebalanceAction
}.

(** [x || 0]: a falsy number is replaced by 0.  Among the real numbers only
    0 is falsy, so this is the identity (lemma [orZero_id]). *)
Definition orZero (x : R) : R :=
  if Req_dec_T x 0 then 0 else x.

Definition isHold (a : Action) : bool :=
  match a with HOLD => true | _ => false end.

Definition actionOf (delta : R) : Action :=
  if Rlt_dec 0.01 delta then BUY
  else if Rlt_dec delta (-0.01) then SELL
  else HOLD.

Definition calculations (assets : list Asset) : RebalanceReport :=
  let totalValue :=
    fold_left (fun sum a => sum + orZero (currentValue a)) assets 0 in
  let totalAllocation :=
    fold_left (fun sum a => sum + orZero (targetAllocation a)) assets 0 in
  let isValid :=
    if Rlt_dec (Rabs (totalAllocation - 100)) 0.01 then true else false in
  let actions :=
    map (fun asset =>
           let targetValue := (totalValue * orZero (targetAllocation asset)) / 100 in
           let delta := targetValue - orZero (currentValue asset) in
           mkAction asset targetValue delta (actionOf delta))
        assets in
  let actionableItems := filter (fun a => negb (isHold (action a))) actions in
  mkReport totalValue totalAllocation isValid actions actionableItems.

(** How a call of the allocator ends: the body has no guard and no [throw]. *)
Definition rebalancePortfolio (assets : list Asset) : completion RebalanceReport :=
  Normal (calculations assets).

(** The portfolio the page starts with, its last target lowered to 20. *)
Definition portfolio90 : list Asset :=
  [ mkAsset "1" "US Stocks" 50000 40;
    mkAsset "2" "Bonds" 30000 30;
    mkAsset "3" "International" 20000 20 ].

Definition shortPortfolio : list Asset :=
  [ mkAsset "1" "US Stocks" (-100) 60;
    mkAsset "2" "Bonds" 300 40 ].

End Rebalancer.

(** ** Stochastic simulator ([src/app/page.tsx]) *)

Module MonteCarlo.

(** The process-wide random source: the values the coming calls of
    [Math.random()] return, in order.  [Math.random()] answers in [0,1). *)
Definition rng : Type := nat -> R.

Definition shift (k : nat) (g : rng) : rng := fun n => g (k + n)%nat.

Definition inRange (g : rng) : Prop := forall n, 0 <= g n < 1.

(** A source that does not answer 0 for ever. *)
Definition fair (g : rng) : Prop := forall n, exists m, (n <= m)%nat /\ g m <> 0.

(** Code that draws random numbers and may loop: a state monad over the
    random source; [None] is a loop that ran out of fuel. *)
Definition M (A : Type) : Type := rng -> option (A * rng).

Definition ret {A : Type} (a : A) : M A := fun g => Some (a, g).

Definition bind {A B : Type} (c : M A) (k : A -> M B) : M B :=
  fun g => match c g with
           | Some (a, g') => k a g'
           | None => None
           end.

Definition liftOption {A : Type} (o : option A) : M A :=
  fun g => match o with
           | Some a => Some (a, g)
           | None => None
           end.

Notation "x <- c ;; k" := (bind c (fun x => k))
  (at level 61, c at next level, right associativity).

Definition Math_random : M R := fun g => Some (g 0%nat, shift 1 g).

Definition Math_floor (x : R) : Z := Int_part x.

(** [while (u === 0) u = Math.random();] *)
Fixpoint whileZero (fuel : nat) (u : R) {struct fuel} : M R :=
  if Req_dec_T u 0 then
    match fuel with
    | O => fun _ => None
    | S fuel' => u' <- Math_random ;; whileZero fuel' u'
    end
  else ret u.

Definition generateGaussianRandom (fuel : nat) : M R :=
  u1 <- whileZero fuel 0 ;;
  u2 <- whileZero fuel 0 ;;
  ret (sqrt (-2.0 * ln u1) * cos (2.0 * PI * u2)).

(** Arrays of numbers.  [newArray n] is [new Array(n)]; an empty slot, which
    the code below never reads, is shown as 0.  [store a i v] is [a[i] = v],
    which lengthens the array when [i] is past its end. *)
Definition newArray (n : nat) : list R := repeat 0 n.

Definition store (a : list R) (i : nat) (v : R) : list R :=
  if (i <? length a)%nat then firstn i a ++ v :: skipn (S i) a
  else a ++ repeat 0 (i - length a) ++ [v].

(** The body of [for (let i = 1; i <= steps; i++)], [n] rounds from [i] on. *)
Fixpoint gbmLoop (fuel : nat) (r sigma dt : R) (n i : nat) (path : list R) : M (list R) :=
  match n with
  | O => ret path
  | S n' =>
      Z <- generateGaussianRandom fuel ;;
      let drift := (r - 0.5 * sigma * sigma) * dt in
      let diffusion := sigma * sqrt dt * Z in
      gbmLoop fuel r sigma dt n' (S i)
              (store path i (nth (i - 1) path 0 * exp (drift + diffusion)))
  end.

Definition simulateGBMPath (fuel : nat) (S0 r sigma T : R) (steps : nat) : M (list R) :=
  let dt := T / INR steps in
  let path := newArray (steps + 1) in
  let path := store path 0 S0 in
  gbmLoop fuel r sigma dt steps 1 path.

Inductive OptionType : Type := call | put.

Record McParams : Type := mkParams {
  S0 : R;
  K : R;
  T : R;
  r : R;
  sigma : R;
  iterations : nat;
  steps : nat;
  optionType : OptionType
}.

Record SimulationResult : Type := mkSimulation {
  optionPrice : R;
  standardError : R;
  inTheMoneyProbability : R;
  valueAtRisk : R;
  visualPaths : list (list R)
}.

(** What the main loop accumulates. *)
Record Accumulated : Type := mkAcc {
  allPaths : list (list R);
  payoffs : list R;
  sumPayoff : R;
  sumPayoffSquared : R;
  inTheMoneyCount : nat
}.

Definition payoffOf (p : McParams) (path : list R) : R :=
  let ST := nth (length path - 1) path 0 in
  match optionType p with
  | call => Rmax (ST - K p) 0
  | put => Rmax (K p - ST) 0
  end.

Definition discounted (p : McParams) (payoff : R) : R :=
  payoff * exp (- r p * T p).

(** The body of [for (let i = 0; i < iterations; i++)], [n] rounds. *)
Fixpoint mcLoop (fuel : nat) (p : McParams) (n : nat) (a : Accumulated) : M Accumulated :=
  match n with
  | O => ret a
  | S n' =>
      path <- simulateGBMPath fuel (S0 p) (r p) (sigma p) (T p) (steps p) ;;
      let payoff := payoffOf p path in
      let inTheMoneyCount :=
        if Rlt_dec 0 payoff then S (inTheMoneyCount a) else inTheMoneyCount a in
      let discountedPayoff := discounted p payoff in
      mcLoop fuel p n'
             (mkAcc (allPaths a ++ [path])
                    (payoffs a ++ [discountedPayoff])
                    (sumPayoff a + discountedPayoff)
                    (sumPayoffSquared a + discountedPayoff * discountedPayoff)
                    inTheMoneyCount)
  end.

(** [payoffs.sort((a, b) => a - b)]: the comparator orders two numbers by
    the sign of their difference; the result is the ascending rearrangement,
    built here by insertion. *)
Definition compareNumbers (a b : R) : R := a - b.

Fixpoint insertSorted (x : R) (l : list R) : list R :=
  match l with
  | [] => [x]
  | y :: l' =>
      if Rle_dec (compareNumbers x y) 0 then x :: y :: l' else y :: insertSorted x l'
  end.

Definition sortAscending (l : list R) : list R := fold_right insertSorted [] l.

(** [for (let i = 0; i < iterations; i += step)] with its guarded push. *)
Fixpoint visualLoop (fuel : nat) (iterations step i : nat)
         (allPaths visualPaths : list (list R)) {struct fuel} : option (list (list R)) :=
  if (i <? iterations)%nat then
    match fuel with
    | O => None
    | S fuel' =>
        visualLoop fuel' iterations step (i + step) allPaths
                   (if (length visualPaths <? 20)%nat
                    then visualPaths ++ [nth i allPaths []]
                    else visualPaths)
    end
  else Some visualPaths.

(** [payoffs[index5th]] is read with [nth]; with [iterations > 0] the index
    is inside the array (lemma [index5th_in_range]). *)
Definition runMonteCarloSimulation (fuel : nat) (p : McParams) : M SimulationResult :=
  let iterations := iterations p in
  a <- mcLoop fuel p iterations (mkAcc [] [] 0 0 0) ;;
  let optionPrice := sumPayoff a / INR iterations in
  let variance := (sumPayoffSquared a / INR iterations) - (optionPrice * optionPrice) in
  let standardError := sqrt (variance / INR iterations) in
  let inTheMoneyProbability := (INR (inTheMoneyCount a) / INR iterations) * 100 in
  let payoffs := sortAscending (payoffs a) in
  let index5th := Math_floor (INR iterations * 0.05) in
  let payoff5th := nth (Z.to_nat index5th) payoffs 0 in
  let valueAtRisk := optionPrice - payoff5th in
  let step := Z.max 1 (Math_floor (INR iterations / 20)) in
  visualPaths <- liftOption
                   (visualLoop fuel iterations (Z.to_nat step) 0 (allPaths a) []) ;;
  ret (mkSimulation optionPrice standardError inTheMoneyProbability valueAtRisk visualPaths).

End MonteCarlo.

(** ** What the specification says, in terms of the simulator *)

Module MonteCarloSpec.
Import MonteCarlo.

(** [after k g g']: [g'] is [g] with its first [k] answers consumed. *)
Definition after (k : nat) (g g' : rng) : Prop := forall n, g' n = g (k + n)%nat.

Definition converges {A : Type} (c : nat -> M A) (g : rng) (a : A) (g' : rng) : Prop :=
  exists fuel0, forall fuel, (fuel0 <= fuel)%nat -> c fuel g = Some (a, g').

(** What a returned sample is made of: [u1] and [u2] are the first answers
    different from 0 of two successive runs of the resampling loop. *)
Definition gaussianFrom (g : rng) (z : R) (g' : rng) : Prop :=
  exists k1 k2,
    let u1 := g k1 in
    let u2 := g (S k1 + k2)%nat in
    u1 <> 0 /\ u2 <> 0 /\
    (forall j, (j < k1)%nat -> g j = 0) /\
    (forall j, (j < k2)%nat -> g (S k1 + j)%nat = 0) /\
    z = sqrt (-2.0 * ln u1) * cos (2.0 * PI * u2) /\
    after (S k1 + S k2) g g'.

(** The factor one step multiplies by. *)
Definition stepFactor (r sigma dt Z : R) : R :=
  exp ((r - 0.5 * sigma * sigma) * dt + sigma * sqrt dt * Z).

(** What the specification says of a path from [S0] in [steps] steps. *)
Definition gbmPath (S0 r sigma T : R) (steps : nat) (path : list R) : Prop :=
  length path = (steps + 1)%nat /\
  nth 0 path 0 = S0 /\
  (forall i, (1 <= i <= steps)%nat ->
     exists Z, nth i path 0 = nth (i - 1) path 0 * stepFactor r sigma (T / INR steps) Z) /\
  (0 < S0 -> Forall (fun x => 0 < x) path).

Definition discountedPayoff (p : McParams) (path : list R) : R :=
  discounted p (payoffOf p path).

Definition inTheMoney (p : McParams) (path : list R) : bool :=
  if Rlt_dec 0 (payoffOf p path) then true else false.

Definition square (x : R) : R := x * x.

(** The paths of a run: [n] of them, each a path of the configuration. *)
Definition pathsOf (p : McParams) (n : nat) (paths : list (list R)) : Prop :=
  length paths = n /\
  Forall (gbmPath (S0 p) (r p) (sigma p) (T p) (steps p)) paths.

(** [count] paths taken from position [i] on, one every [step]. *)
Fixpoint strided (count step i : nat) (allPaths : list (list R)) : list (list R) :=
  match count with
  | O => []
  | S count' => nth i allPaths [] :: strided count' step (i + step) allPaths
  end.

(** The outputs of a run, written over the [iterations] paths it simulated. *)
Record runOf (p : McParams) (paths : list (list R)) (res : SimulationResult) : Prop := {
  run_paths : pathsOf p (iterations p) paths;
  run_price :
    optionPrice res = sumR (map (discountedPayoff p) paths) / INR (iterations p);
  run_error :
    standardError res
    = sqrt ((sumR (map square (map (discountedPayoff p) paths)) / INR (iterations p)
             - optionPrice res * optionPrice res) / INR (iterations p));
  run_itm :
    inTheMoneyProbability res
    = INR (length (filter (inTheMoney p) paths)) / INR (iterations p) * 100;
  run_var :
    valueAtRisk res
    = optionPrice res
      - nth (Z.to_nat (Math_floor (INR (iterations p) * 0.05)))
            (sortAscending (map (discountedPayoff p) paths)) 0;
  run_visual :
    exists count,
      let step := Z.to_nat (Z.max 1 (Math_floor (INR (iterations p) / 20))) in
      (forall j, (j < count)%nat -> (j * step < iterations p)%nat) /\
      (iterations p <= count * step)%nat /\
      visualPaths res = firstn 20 (strided count step 0 paths)
}.

(** A random source that answers 0.5 every time, and the page's defaults
    with 40 iterations of 2 steps. *)
Definition halves : rng := fun _ => 0.5.

Definition smallRun : McParams := mkParams 100 100 1 0.05 0.2 40 2 call.

(** The paths a run simulates: [n] successive calls of [simulateGBMPath]
    on the run's random source. *)
Fixpoint simulatedPaths (fuel : nat) (p : McParams) (n : nat) : M (list (list R)) :=
  match n with
  | O => ret []
  | S n' =>
      path <- simulateGBMPath fuel (S0 p) (r p) (sigma p) (T p) (steps p) ;;
      rest <- simulatedPaths fuel p n' ;;
      ret (path :: rest)
  end.

(** A source without zeros whose answers make every Gaussian sample 0
    (u2 = 0.25, cosine 0) except the one of iteration 2 (u2 = 0.5,
    cosine -1), and a put of 40 iterations of one step, at the money and
    without drift: the path of iteration 2 dips, the others stay flat. *)
Definition dipSource : rng :=
  fun n => if Nat.even n then 0.5 else if (n =? 5)%nat then 0.5 else 0.25.

Definition dipRun : McParams := mkParams 100 100 1 0.02 0.2 40 1 put.

Definition flatPath : list R := [100; 100].

Definition dipPath : list R := [100; 100 * exp (- (0.2 * sqrt (2 * ln 2)))].

Definition dipPayoff : R :=
  (100 - 100 * exp (- (0.2 * sqrt (2 * ln 2)))) * exp (- (0.02)).

(** The path of one step made from the draws [u1] and [u2]. *)
Definition singleStepPath (p : McParams) (u1 u2 : R) : list R :=
  [S0 p; S0 p * stepFactor (r p) (sigma p) (T p / INR 1)
                  (sqrt (-2.0 * ln u1) * cos (2.0 * PI * u2))].

Definition dipPaths : list (list R) :=
  map (fun i => if (i =? 2)%nat then dipPath else flatPath) (seq 0 40).

Definition dipPayoffs : list R :=
  map (fun i => if (i =? 2)%nat then dipPayoff else 0) (seq 0 40).

End MonteCarloSpec.

(** ** The page's other computations ([src/app/page.tsx]) *)

(** The price chart of the derivatives tab.  [toFixed] is
    [Number.prototype.toFixed], taken as given. *)
Module PriceChart.
Import BlackScholes.

Section WithFormatting.

Variable toFixed : nat -> R -> string.

Record ChartRow : Type := mkRow {
  price : string;
  call : string;
  put : string
}.

(** [for (let price = minS; price <= maxS; price += step)] *)
Fixpoint chartLoop (fuel : nat) (price maxS step K T r sigma : R)
         (data : list ChartRow) {struct fuel} : option (list ChartRow) :=
  if Rle_dec price maxS then
    match fuel with
    | O => None
    | S fuel' =>
        let bs := calculateBlackScholes price K T (r / 100) (sigma / 100) in
        chartLoop fuel' (price + step) maxS step K T r sigma
                  (data ++ [mkRow (toFixed 2 price)
                                  (toFixed 2 (callPrice bs))
                                  (toFixed 2 (putPrice bs))])
    end
  else Some data.

Definition chartData (fuel : nat) (S K T r sigma : R) : option (list ChartRow) :=
  let minS := S * 0.5 in
  let maxS := S * 1.5 in
  let step := (maxS - minS) / 50 in
  chartLoop fuel minS maxS step K T r sigma [].

End WithFormatting.

End PriceChart.

(** The pie charts of the allocation tab and the three edits of the asset
    list. *)
Module Portfolio.
Import Rebalancer.

Record PieDatum : Type := mkDatum {
  name : string;
  value : R
}.

Definition Rgtb (x y : R) : bool := if Rlt_dec y x then true else false.

(** [a.name || 'Unnamed']: the empty string is falsy. *)
Definition displayName (a : Asset) : string :=
  if String.eqb (Rebalancer.name a) "" then "Unnamed" else Rebalancer.name a.

(** [currentData] and [targetData] of the [calculations] memo. *)
Definition currentData (assets : list Asset) : list PieDatum :=
  map (fun a => mkDatum (displayName a) (currentValue a))
      (filter (fun a => Rgtb (currentValue a) 0) assets).

Definition targetData (assets : list Asset) : list PieDatum :=
  let totalValue := totalValue (calculations assets) in
  map (fun a => mkDatum (displayName a) ((totalValue * targetAllocation a) / 100))
      (filter (fun a => Rgtb (targetAllocation a) 0 && Rgtb totalValue 0) assets).

(** [addAsset]; [now] is what [Date.now().toString()] answers. *)
Definition addAsset (now : string) (assets : list Asset) : list Asset :=
  assets ++ [mkAsset now "" 0 0].

Definition removeAsset (id : string) (assets : list Asset) : list Asset :=
  filter (fun a => negb (String.eqb (Rebalancer.id a) id)) assets.






End Portfolio.

(** Further notions used to state properties of the simulator. *)
Module MonteCarloExtraSpec.
Import MonteCarlo MonteCarloSpec.

(** [path[path.length - 1]] *)
Definition terminal (path : list R) : R := nth (length path - 1) path 0.


Definition exceeds (x y : R) : bool := if Rlt_dec y x then true else false.

End MonteCarloExtraSpec.

(** * Properties *)

Module BlackScholesFacts.
Import BlackScholes.

Lemma tailProb_neg (x : R) : tailProb (- x) = tailProb x.
Proof.
  unfold tailProb. rewrite Rabs_Ropp.
  replace (- - x * - x / 2) with (- x * x / 2) by lra.
  reflexivity.
Qed.

(** Away from zero the two tails add up to one, exactly. *)
Lemma normalCDF_sym (x : R) : x <> 0 -> normalCDF x + normalCDF (- x) = 1.
Proof.
  intros Hx. unfold normalCDF. rewrite tailProb_neg.
  destruct (Rlt_dec 0 x) as [Hp | Hp]; destruct (Rlt_dec 0 (- x)) as [Hn | Hn]; lra.
Qed.

(** At zero both calls take the [prob] branch. *)
Lemma tailProb_0 : tailProb 0 = 0.3989423 * 1.2533137.
Proof.
  unfold tailProb. rewrite Rabs_R0.
  replace (- 0 * 0 / 2) with 0 by lra. rewrite exp_0. lra.
Qed.

Lemma normalCDF_0 : normalCDF 0 = 0.3989423 * 1.2533137.
Proof.
  unfold normalCDF. destruct (Rlt_dec 0 0) as [H | H]; [lra | apply tailProb_0].
Qed.

Lemma normalCDF_sym_0 : normalCDF 0 + normalCDF (- 0) = 2 * (0.3989423 * 1.2533137).
Proof. rewrite Ropp_0, normalCDF_0. lra. Qed.

Lemma parityGap_eq (S K T r sigma : R) :
  parityGap S K T r sigma =
    S * (normalCDF (d1_of S K T r sigma) + normalCDF (- d1_of S K T r sigma) - 1)
    - K * exp (- r * T)
      * (normalCDF (d2_of S K T r sigma) + normalCDF (- d2_of S K T r sigma) - 1).
Proof.
  unfold parityGap, calculateBlackScholes, d2_of. cbn [callPrice putPrice]. ring.
Qed.

(** *** Range of the approximation *)

Lemma poly_pos (t : R) : 0 <= t <= 1 ->
  0 < 0.3193815 + t * (-0.3565638 + t * (1.781478 + t * (-1.821256 + t * 1.330274))).
Proof.
  intros [H0 H1].
  assert (Hq : 1.1 <= 1.781478 + t * (-1.821256 + t * 1.330274)).
  { pose proof (Rle_0_sqr (t - 0.6845)) as Hs. unfold Rsqr in Hs. nra. }
  assert (Hq2 : 0 <= t * (1.781478 + t * (-1.821256 + t * 1.330274)) - 1.1 * t) by nra.
  pose proof (Rle_0_sqr (t - 0.162)) as Hs. unfold Rsqr in Hs.
  nra.
Qed.

Lemma poly_le (t : R) : 0 <= t <= 1 ->
  0.3193815 + t * (-0.3565638 + t * (1.781478 + t * (-1.821256 + t * 1.330274))) <= 2.2.
Proof.
  intros [H0 H1].
  assert (Hq : 1.781478 + t * (-1.821256 + t * 1.330274) <= 1.781478) by nra.
  assert (Hq2 : t * (1.781478 + t * (-1.821256 + t * 1.330274)) <= 1.781478) by nra.
  nra.
Qed.

Lemma t_range (x : R) : 0 < 1 / (1 + 0.2316419 * Rabs x) <= 1.
Proof.
  pose proof (Rabs_pos x) as Hx.
  assert (Hden : 1 <= 1 + 0.2316419 * Rabs x) by nra.
  split.
  - apply Rdiv_lt_0_compat; lra.
  - apply (Rmult_le_reg_r (1 + 0.2316419 * Rabs x)); [lra | ].
    unfold Rdiv. rewrite Rmult_assoc, Rinv_l by lra. lra.
Qed.

Lemma exp_nonpos_le_1 (y : R) : y <= 0 -> exp y <= 1.
Proof.
  intros [Hy | Hy].
  - left. rewrite <- exp_0. apply exp_increasing. exact Hy.
  - subst y. rewrite exp_0. lra.
Qed.

Lemma d_range (x : R) : 0 < 0.3989423 * exp (- x * x / 2) <= 0.3989423.
Proof.
  pose proof (exp_pos (- x * x / 2)) as Hp.
  assert (Hle : exp (- x * x / 2) <= 1).
  { apply exp_nonpos_le_1. pose proof (Rle_0_sqr x) as Hs. unfold Rsqr in Hs. lra. }
  lra.
Qed.

Lemma tailProb_range (x : R) : 0 < tailProb x < 1.
Proof.
  unfold tailProb.
  pose proof (t_range x) as Ht. pose proof (d_range x) as Hd.
  set (t := 1 / (1 + 0.2316419 * Rabs x)) in *.
  set (d := 0.3989423 * exp (- x * x / 2)) in *.
  assert (Ht' : 0 <= t <= 1) by lra.
  pose proof (poly_pos t Ht') as Hp. pose proof (poly_le t Ht') as Hq.
  set (p := 0.3193815 + t * (-0.3565638 + t * (1.781478 + t * (-1.821256 + t * 1.330274)))) in *.
  assert (Hdt : 0 < d * t) by (apply Rmult_lt_0_compat; lra).
  assert (Hdt1 : d * t <= 0.3989423) by nra.
  split; [apply Rmult_lt_0_compat; lra | nra].
Qed.

Lemma normalCDF_range (x : R) : 0 < normalCDF x < 1.
Proof.
  unfold normalCDF. pose proof (tailProb_range x) as H.
  destruct (Rlt_dec 0 x); lra.
Qed.

Lemma normalPDF_pos (x : R) : 0 < normalPDF x.
Proof.
  unfold normalPDF. apply Rdiv_lt_0_compat; [apply exp_pos | ].
  apply sqrt_lt_R0. pose proof PI_RGT_0. lra.
Qed.

End BlackScholesFacts.

Module ParityClaims.
Import BlackScholes BlackScholesFacts.

Lemma d1_at_the_money : d1_of 100 100 1 (-0.125) 0.5 = 0.
Proof.
  unfold d1_of. replace (100 / 100) with 1 by lra. rewrite ln_1, sqrt_1. lra.
Qed.

Lemma d2_at_the_money : d2_of 100 100 1 (-0.125) 0.5 = -0.5.
Proof. unfold d2_of. rewrite d1_at_the_money, sqrt_1. lra. Qed.

Lemma parityGap_at_the_money :
  parityGap 100 100 1 (-0.125) 0.5 = 100 * (2 * (0.3989423 * 1.2533137) - 1).
Proof.
  rewrite parityGap_eq, d1_at_the_money, d2_at_the_money.
  rewrite normalCDF_sym_0, (normalCDF_sym (-0.5)) by lra. ring.
Qed.

(** Away from [d1 = 0] and [d2 = 0] the reflection does add up to one and,
    in exact arithmetic, parity holds. *)
Lemma parity_exact (S K T r sigma : R) :
  d1_of S K T r sigma <> 0 -> d2_of S K T r sigma <> 0 ->
  parityGap S K T r sigma = 0.
Proof.
  intros H1 H2. rewrite parityGap_eq, !normalCDF_sym by assumption. ring.
Qed.

(** C1 (a defect of the code): S = K = 100, T = 1, r = -0.125, sigma = 0.5
    is a valid input at which d1 is exactly 0.  [normalCDF] reflects with
    [x > 0 ? 1 - prob : prob], so [normalCDF(d1)] and [normalCDF(-d1)] both
    return [prob], they add up to 0.9999997 instead of 1, and
    callPrice - putPrice misses S - K e^(-rT) by about 3.0e-5, more than the
    tolerance of 1e-5 that the claim and the parity test ask for. *)
Theorem C1_parity_broken_at_zero_d1 :
  valid 100 100 1 0.5 /\
  d1_of 100 100 1 (-0.125) 0.5 = 0 /\
  normalCDF (d1_of 100 100 1 (-0.125) 0.5) + normalCDF (- d1_of 100 100 1 (-0.125) 0.5)
  = 2 * (0.3989423 * 1.2533137) /\
  parityGap 100 100 1 (-0.125) 0.5 = 100 * (2 * (0.3989423 * 1.2533137) - 1) /\
  ~ Rabs (parityGap 100 100 1 (-0.125) 0.5) <= 1e-5.
Proof.
  split; [unfold valid; lra | ].
  split; [apply d1_at_the_money | ].
  split; [rewrite d1_at_the_money; apply normalCDF_sym_0 | ].
  split; [apply parityGap_at_the_money | ].
  rewrite parityGap_at_the_money. rewrite Rabs_left; lra.
Qed.

End ParityClaims.

Module GreeksClaims.
Import BlackScholes BlackScholesFacts.

(** C9: for every valid input the returned delta lies in [0,1] and the
    returned gamma is non-negative. *)
Theorem C9_delta_gamma_range (S K T r sigma : R) :
  valid S K T sigma ->
  0 <= delta (calculateBlackScholes S K T r sigma) <= 1 /\
  0 <= gamma (calculateBlackScholes S K T r sigma).
Proof.
  intros (HS & HK & HT & Hs).
  unfold calculateBlackScholes; cbn [delta gamma].
  split.
  - pose proof (normalCDF_range (d1_of S K T r sigma)). lra.
  - left. apply Rdiv_lt_0_compat; [apply normalPDF_pos | ].
    apply Rmult_lt_0_compat; [apply Rmult_lt_0_compat; assumption | ].
    apply sqrt_lt_R0; assumption.
Qed.

Lemma C9_delta_gamma_range_witness :
  valid 100 100 1 0.2 /\
  0 <= delta (calculateBlackScholes 100 100 1 0.05 0.2) <= 1 /\
  0 <= gamma (calculateBlackScholes 100 100 1 0.05 0.2).
Proof.
  split; [unfold valid; lra | ].
  apply (C9_delta_gamma_range 100 100 1 0.05 0.2). unfold valid; lra.
Defined.

End GreeksClaims.

Module PricerErrorClaims.
Import BlackScholes.

(** With T = 0 or sigma = 0 the divisor of [d1] and of [gamma] is zero. *)
Lemma divisor_zero (S T sigma : R) :
  T = 0 \/ sigma = 0 -> sigma * sqrt T = 0 /\ S * sigma * sqrt T = 0.
Proof.
  intros [H | H]; subst.
  - rewrite sqrt_0. split; ring.
  - split; ring.
Qed.

(** C2, as stated, fails: called with T = 0 the pricer does not end with an
    InvalidParameter error, it returns a result record. *)
Lemma C2_no_rejection_counterexample :
  (100 <= 0 \/ 100 <= 0 \/ 0 <= 0 \/ 0.2 <= 0) /\
  ~ (exists field value,
       priceOption 100 100 0 0.05 0.2 = Throw (InvalidParameter field value)).
Proof.
  split; [right; right; left; lra | ].
  intros (f & v & H). unfold priceOption in H. discriminate H.
Qed.

(** C2, amended: the pricer performs no validation; for every input, the
    non-positive ones included, it returns the record computed by the
    formulas and never ends with an error. *)
Theorem C2_pricer_always_returns (S K T r sigma : R) :
  (exists res, priceOption S K T r sigma = Normal res) /\
  (forall e, priceOption S K T r sigma <> Throw e).
Proof.
  split.
  - exists (calculateBlackScholes S K T r sigma). reflexivity.
  - intros e H. unfold priceOption in H. discriminate H.
Qed.

End PricerErrorClaims.

Module RebalancerFacts.
Import Rebalancer.

Lemma orZero_id (x : R) : orZero x = x.
Proof. unfold orZero. destruct (Req_dec_T x 0); congruence. Qed.

Lemma fold_left_sum {A : Type} (f : A -> R) (l : list A) (acc : R) :
  fold_left (fun sum a => sum + orZero (f a)) l acc = acc + sumR (map f l).
Proof.
  revert acc. induction l as [| a l IH]; intros acc; simpl.
  - ring.
  - rewrite IH, orZero_id. ring.
Qed.

Lemma totalValue_sum (assets : list Asset) :
  totalValue (calculations assets) = sumR (map currentValue assets).
Proof. unfold calculations; cbn [totalValue]. rewrite fold_left_sum. ring. Qed.

Lemma totalAllocation_sum (assets : list Asset) :
  totalAllocation (calculations assets) = sumR (map targetAllocation assets).
Proof. unfold calculations; cbn [totalAllocation]. rewrite fold_left_sum. ring. Qed.

Lemma actions_map (assets : list Asset) :
  actions (calculations assets) =
    map (fun a =>
           let tv := totalValue (calculations assets) * targetAllocation a / 100 in
           mkAction a tv (tv - currentValue a) (actionOf (tv - currentValue a)))
        assets.
Proof.
  unfold calculations; cbn [actions totalValue]. apply map_ext.
  intros a. rewrite !orZero_id. reflexivity.
Qed.

Lemma isValid_iff (assets : list Asset) :
  isValid (calculations assets) = true <->
  Rabs (totalAllocation (calculations assets) - 100) < 0.01.
Proof.
  unfold calculations; cbn [isValid totalAllocation].
  destruct (Rlt_dec _ 0.01) as [H | H]; split; intros H'; try assumption;
    try reflexivity; try discriminate; contradiction.
Qed.

Lemma actionOf_spec (d : R) :
  (d > 0.01 -> actionOf d = BUY) /\
  (d < -0.01 -> actionOf d = SELL) /\
  (-0.01 <= d <= 0.01 -> actionOf d = HOLD).
Proof.
  unfold actionOf.
  destruct (Rlt_dec 0.01 d); destruct (Rlt_dec d (-0.01)); repeat split; intros; lra || reflexivity.
Qed.

Lemma sum_scaled (c : R) (l : list Asset) :
  sumR (map (fun a => c * targetAllocation a / 100) l)
  = c * sumR (map targetAllocation l) / 100.
Proof.
  induction l as [| a l IH]; simpl.
  - field.
  - rewrite IH. field.
Qed.

Lemma sum_targetValue (assets : list Asset) :
  sumR (map targetValue (actions (calculations assets)))
  = totalValue (calculations assets) * totalAllocation (calculations assets) / 100.
Proof.
  rewrite actions_map, map_map. cbn [targetValue].
  rewrite sum_scaled, totalAllocation_sum. reflexivity.
Qed.

End RebalancerFacts.

Module RebalancerClaims.
Import Rebalancer RebalancerFacts.

(** C3: for every sequence of assets the rebalancer yields, for each asset
    in input order, targetValue = totalValue * targetAllocation / 100 with
    totalValue the sum of all currentValue, delta = targetValue -
    currentValue, and action BUY when delta > 0.01, SELL when delta < -0.01,
    HOLD otherwise; isValid is true exactly when
    |totalAllocation - 100| < 0.01. *)
Theorem C3_rebalancer_actions (assets : list Asset) :
  let rep := calculations assets in
  totalValue rep = sumR (map currentValue assets) /\
  totalAllocation rep = sumR (map targetAllocation assets) /\
  Forall2 (fun a x =>
             asset x = a /\
             targetValue x = totalValue rep * targetAllocation a / 100 /\
             delta x = targetValue x - currentValue a /\
             (delta x > 0.01 -> action x = BUY) /\
             (delta x < -0.01 -> action x = SELL) /\
             (~ delta x > 0.01 -> ~ delta x < -0.01 -> action x = HOLD))
          assets (actions rep) /\
  (isValid rep = true <-> Rabs (totalAllocation rep - 100) < 0.01).
Proof.
  intros rep. subst rep.
  split; [apply totalValue_sum | ].
  split; [apply totalAllocation_sum | ].
  split; [ | apply isValid_iff].
  rewrite actions_map.
  generalize (totalValue (calculations assets)). intros tv.
  induction assets as [| a l IH]; simpl; constructor; [ | exact IH].
  cbn [asset targetValue delta action].
  destruct (actionOf_spec (tv * targetAllocation a / 100 - currentValue a))
    as (Hb & Hs & Hh).
  repeat split; try assumption.
  intros H1 H2. apply Hh. lra.
Qed.

(** C8: whatever the allocations sum to, the rebalancer computes an action
    for every asset, in input order, from targetValue = (sum of all
    currentValue) * targetAllocation / 100, and the targetValue outputs add
    up to (sum of all currentValue) * (sum of all targetAllocation) / 100;
    for a portfolio whose allocations sum to 90, isValid is false and the
    targetValue outputs add up to (sum of all currentValue) * 90 / 100. *)
Theorem C8_target_values_sum (assets : list Asset) :
  let rep := calculations assets in
  let total := sumR (map currentValue assets) in
  let allocation := sumR (map targetAllocation assets) in
  totalValue rep = total /\
  Forall2 (fun a x =>
             asset x = a /\
             targetValue x = total * targetAllocation a / 100 /\
             delta x = total * targetAllocation a / 100 - currentValue a /\
             (delta x > 0.01 -> action x = BUY) /\
             (delta x < -0.01 -> action x = SELL) /\
             (-0.01 <= delta x <= 0.01 -> action x = HOLD))
          assets (actions rep) /\
  sumR (map targetValue (actions rep)) = total * allocation / 100 /\
  (allocation = 90 ->
   isValid rep = false /\
   sumR (map targetValue (actions rep)) = total * 90 / 100).
Proof.
  cbv zeta.
  assert (Hsum : sumR (map targetValue (actions (calculations assets)))
                 = sumR (map currentValue assets)
                   * sumR (map targetAllocation assets) / 100).
  { rewrite sum_targetValue, totalValue_sum, totalAllocation_sum. reflexivity. }
  split; [apply totalValue_sum | split; [ | split; [exact Hsum | ]]].
  - clear Hsum. rewrite actions_map, totalValue_sum.
    generalize (sumR (map currentValue assets)). intros tv.
    induction assets as [| a l IH]; simpl; [constructor | ].
    constructor; [ | exact IH].
    cbn [asset targetValue delta action].
    destruct (actionOf_spec (tv * targetAllocation a / 100 - currentValue a))
      as (Hb & Hs & Hh).
    split; [reflexivity | split; [reflexivity | split; [reflexivity | ]]].
    split; [exact Hb | split; [exact Hs | exact Hh]].
  - intros H90. split.
    + destruct (isValid (calculations assets)) eqn:Hv; [ | reflexivity].
      apply isValid_iff in Hv. rewrite totalAllocation_sum, H90 in Hv.
      replace (90 - 100) with (-10) in Hv by lra.
      rewrite Rabs_left in Hv; lra.
    + rewrite Hsum, H90. reflexivity.
Qed.

Lemma C8_target_values_sum_witness :
  sumR (map targetAllocation portfolio90) = 90 /\
  isValid (calculations portfolio90) = false /\
  map action (actions (calculations portfolio90)) = [SELL; HOLD; HOLD] /\
  sumR (map targetValue (actions (calculations portfolio90))) = 90000.
Proof.
  assert (H90 : sumR (map targetAllocation portfolio90) = 90) by (simpl; lra).
  destruct (C8_target_values_sum portfolio90) as (_ & Hact & _ & Hspec).
  destruct (Hspec H90) as (Hv & Hsum).
  split; [exact H90 | split; [exact Hv | split]].
  - remember (actions (calculations portfolio90)) as acts eqn:Eacts.
    clear Eacts Hspec Hv Hsum. unfold portfolio90 in Hact.
    inversion Hact as [| a1 x1 l1 m1 (_ & _ & Hd1 & _ & Hs1 & _) Hact1]; subst.
    inversion Hact1 as [| a2 x2 l2 m2 (_ & _ & Hd2 & _ & _ & Hh2) Hact2]; subst.
    inversion Hact2 as [| a3 x3 l3 m3 (_ & _ & Hd3 & _ & _ & Hh3) Hact3]; subst.
    inversion Hact3; subst.
    simpl in Hd1, Hd2, Hd3. simpl.
    rewrite Hs1 by lra. rewrite Hh2 by lra. rewrite Hh3 by lra. reflexivity.
  - rewrite Hsum. simpl. lra.
Defined.

(** C5, as stated, fails: a portfolio holding an asset with a negative
    currentValue is not rejected, a report is returned. *)
Lemma C5_negative_value_counterexample :
  Exists (fun a => currentValue a < 0) shortPortfolio /\
  ~ (exists field value,
       rebalancePortfolio shortPortfolio = Throw (InvalidParameter field value)).
Proof.
  split.
  - apply Exists_cons_hd. simpl. lra.
  - intros (f & v & H). unfold rebalancePortfolio in H. discriminate H.
Qed.

(** C5, amended: the rebalancer never fails, neither on malformed
    allocations nor on a negative currentValue: it performs no validation
    and returns a report for every sequence of assets. *)
Theorem C5_rebalancer_always_returns (assets : list Asset) :
  (exists rep, rebalancePortfolio assets = Normal rep) /\
  (forall e, rebalancePortfolio assets <> Throw e).
Proof.
  split.
  - exists (calculations assets). reflexivity.
  - intros e H. unfold rebalancePortfolio in H. discriminate H.
Qed.

End RebalancerClaims.

Module MonteCarloFacts.
Import MonteCarlo MonteCarloSpec.

(** *** The random source *)

Lemma inRange_shift (k : nat) (g : rng) : inRange g -> inRange (shift k g).
Proof. intros H n. apply H. Qed.

Lemma fair_shift (k : nat) (g : rng) : fair g -> fair (shift k g).
Proof.
  intros H n. destruct (H (k + n)%nat) as (m & Hm & Hnz).
  exists (m - k)%nat. split; [lia | ].
  unfold shift. replace (k + (m - k))%nat with m by lia. exact Hnz.
Qed.

Lemma after_refl (g : rng) : after 0 g g.
Proof. intros n. reflexivity. Qed.

Lemma after_trans (j k : nat) (g1 g2 g3 : rng) :
  after j g1 g2 -> after k g2 g3 -> after (j + k) g1 g3.
Proof.
  intros H1 H2 n. rewrite H2, H1. f_equal. lia.
Qed.

Lemma after_shift (k : nat) (g : rng) : after k g (shift k g).
Proof. intros n. reflexivity. Qed.

Lemma inRange_after (k : nat) (g g' : rng) : after k g g' -> inRange g -> inRange g'.
Proof. intros Ha H n. rewrite Ha. apply H. Qed.

Lemma fair_after (k : nat) (g g' : rng) : after k g g' -> fair g -> fair g'.
Proof.
  intros Ha H n. destruct (fair_shift k g H n) as (m & Hm & Hnz).
  exists m. split; [exact Hm | ]. rewrite Ha. exact Hnz.
Qed.

(** *** The resampling loop *)

Lemma whileZero_nonzero (fuel : nat) (u : R) (g : rng) :
  u <> 0 -> whileZero fuel u g = Some (u, g).
Proof.
  intros Hu. destruct fuel; simpl; destruct (Req_dec_T u 0); try contradiction; reflexivity.
Qed.

Lemma whileZero_zero (fuel : nat) (g : rng) :
  whileZero (S fuel) 0 g = whileZero fuel (g 0%nat) (shift 1 g).
Proof.
  simpl. destruct (Req_dec_T 0 0) as [_ | H]; [reflexivity | contradiction H; reflexivity].
Qed.

Lemma whileZero_zero_out (g : rng) : whileZero 0 0 g = None.
Proof.
  simpl. destruct (Req_dec_T 0 0) as [_ | H]; [reflexivity | contradiction H; reflexivity].
Qed.

(** The loop started at 0 returns the first answer that is not 0, having
    consumed the zeros before it. *)
Lemma whileZero_spec (fuel : nat) (g : rng) (v : R) (g' : rng) :
  whileZero fuel 0 g = Some (v, g') ->
  exists k, v = g k /\ v <> 0 /\ (forall j, (j < k)%nat -> g j = 0) /\ after (S k) g g'.
Proof.
  revert g. induction fuel as [| fuel IH]; intros g H.
  - rewrite whileZero_zero_out in H. discriminate H.
  - rewrite whileZero_zero in H.
    destruct (Req_dec_T (g 0%nat) 0) as [Hz | Hnz].
    + rewrite Hz in H. destruct (IH _ H) as (k & Hv & Hne & Hzeros & Haft).
      exists (S k). split; [exact Hv | split; [exact Hne | split]].
      * intros j Hj. destruct j as [| j]; [exact Hz | ]. apply (Hzeros j). lia.
      * intros n. rewrite Haft. unfold shift. f_equal.
    + rewrite whileZero_nonzero in H by exact Hnz. inversion H; subst.
      exists 0%nat. split; [reflexivity | split; [exact Hnz | split]].
      * intros j Hj. lia.
      * apply after_shift.
Qed.

(** With the first non-zero answer at position [k], fuel [k + 1] is enough,
    and more fuel changes nothing. *)
Lemma whileZero_runs (k : nat) : forall (g : rng) (fuel : nat),
  g k <> 0 -> (forall j, (j < k)%nat -> g j = 0) -> (k < fuel)%nat ->
  whileZero fuel 0 g = Some (g k, shift (S k) g).
Proof.
  induction k as [| k IH]; intros g fuel Hnz Hzeros Hfuel.
  - destruct fuel as [| fuel]; [lia | ].
    rewrite whileZero_zero. apply whileZero_nonzero. exact Hnz.
  - destruct fuel as [| fuel]; [lia | ].
    rewrite whileZero_zero. rewrite (Hzeros 0%nat) by lia.
    rewrite (IH (shift 1 g) fuel); [reflexivity | exact Hnz | | lia].
    intros j Hj. apply (Hzeros (S j)). lia.
Qed.

(** A position holding the first non-zero answer exists in a fair source. *)
Lemma first_nonzero (g : rng) (m : nat) :
  g m <> 0 -> exists k, (k <= m)%nat /\ g k <> 0 /\ forall j, (j < k)%nat -> g j = 0.
Proof.
  revert g. induction m as [| m IH]; intros g Hm.
  - exists 0%nat. split; [lia | split; [exact Hm | intros j Hj; lia]].
  - destruct (Req_dec_T (g 0%nat) 0) as [Hz | Hnz].
    + destruct (IH (shift 1 g) Hm) as (k & Hk & Hnz & Hzeros).
      exists (S k). split; [lia | split; [exact Hnz | ]].
      intros j Hj. destruct j as [| j]; [exact Hz | ]. apply (Hzeros j). lia.
    + exists 0%nat. split; [lia | split; [exact Hnz | intros j Hj; lia]].
Qed.

(** *** Convergence: from some amount of fuel on, the same result *)

Lemma converges_ret {A : Type} (a : A) (g : rng) :
  converges (fun _ => ret a) g a g.
Proof. exists 0%nat. intros fuel _. reflexivity. Qed.

Lemma converges_bind {A B : Type} (c : nat -> M A) (k : nat -> A -> M B)
      (g g1 g2 : rng) (a : A) (b : B) :
  converges c g a g1 -> converges (fun fuel => k fuel a) g1 b g2 ->
  converges (fun fuel => bind (c fuel) (k fuel)) g b g2.
Proof.
  intros (f1 & H1) (f2 & H2). exists (Nat.max f1 f2). intros fuel Hfuel.
  unfold bind. rewrite H1 by lia. apply H2. lia.
Qed.

Lemma whileZero_converges (g : rng) :
  fair g ->
  exists k, g k <> 0 /\ (forall j, (j < k)%nat -> g j = 0) /\
            converges (fun fuel => whileZero fuel 0) g (g k) (shift (S k) g).
Proof.
  intros Hf. destruct (Hf 0%nat) as (m & _ & Hm).
  destruct (first_nonzero g m Hm) as (k & _ & Hnz & Hzeros).
  exists k. split; [exact Hnz | split; [exact Hzeros | ]].
  exists (S k). intros fuel Hfuel. apply whileZero_runs; [exact Hnz | exact Hzeros | lia].
Qed.

Lemma bind_Some {A B : Type} (c : M A) (k : A -> M B) (g g2 : rng) (b : B) :
  bind c k g = Some (b, g2) ->
  exists a g1, c g = Some (a, g1) /\ k a g1 = Some (b, g2).
Proof.
  unfold bind. destruct (c g) as [[a g1] | ]; [ | discriminate].
  intros H. exists a, g1. split; [reflexivity | exact H].
Qed.

(** *** The Gaussian generator *)

Lemma generateGaussianRandom_spec (fuel : nat) (g : rng) (z : R) (g' : rng) :
  generateGaussianRandom fuel g = Some (z, g') -> gaussianFrom g z g'.
Proof.
  unfold generateGaussianRandom. intros H.
  apply bind_Some in H. destruct H as (u1 & g1 & H1 & H).
  apply bind_Some in H. destruct H as (u2 & g2 & H2 & H).
  unfold ret in H. inversion H; subst z g'. clear H.
  apply whileZero_spec in H1. destruct H1 as (k1 & Hu1 & Hn1 & Hz1 & Ha1).
  apply whileZero_spec in H2. destruct H2 as (k2 & Hu2 & Hn2 & Hz2 & Ha2).
  rewrite Ha1 in Hu2.
  exists k1, k2. cbv zeta. rewrite <- Hu1, <- Hu2.
  split; [exact Hn1 | split; [exact Hn2 | split; [exact Hz1 | split; [ | split]]]].
  - intros j Hj. rewrite <- Ha1. apply Hz2. exact Hj.
  - reflexivity.
  - apply (after_trans _ _ g g1 g2); assumption.
Qed.

Lemma gaussianFrom_after (g : rng) (z : R) (g' : rng) :
  gaussianFrom g z g' -> exists k, after k g g'.
Proof. intros (k1 & k2 & H). exists (S k1 + S k2)%nat. apply H. Qed.

(** In range, the logarithm is taken of a number in (0,1) and the square
    root of a positive number. *)
Lemma log_argument_safe (u : R) : 0 <= u < 1 -> u <> 0 ->
  0 < u < 1 /\ ln u < 0 /\ 0 < -2.0 * ln u.
Proof.
  intros Hr Hnz. assert (Hu : 0 < u < 1) by lra.
  assert (Hln : ln u < 0).
  { rewrite <- ln_1. apply ln_increasing; lra. }
  split; [exact Hu | split; [exact Hln | lra]].
Qed.

Lemma generateGaussianRandom_converges (g : rng) :
  fair g ->
  exists z g', converges generateGaussianRandom g z g' /\ gaussianFrom g z g'.
Proof.
  intros Hf.
  destruct (whileZero_converges g Hf) as (k1 & Hn1 & Hz1 & (f1 & H1)).
  assert (Hf1 : fair (shift (S k1) g)) by (apply fair_shift; exact Hf).
  destruct (whileZero_converges _ Hf1) as (k2 & Hn2 & Hz2 & (f2 & H2)).
  assert (Hrun : forall fuel, (Nat.max f1 f2 <= fuel)%nat ->
            generateGaussianRandom fuel g
            = Some (sqrt (-2.0 * ln (g k1)) * cos (2.0 * PI * shift (S k1) g k2),
                    shift (S k2) (shift (S k1) g))).
  { intros fuel Hfuel. unfold generateGaussianRandom, bind.
    rewrite H1 by lia. rewrite H2 by lia. reflexivity. }
  eexists. eexists. split.
  - exists (Nat.max f1 f2). exact Hrun.
  - apply (generateGaussianRandom_spec (Nat.max f1 f2)). apply Hrun. lia.
Qed.

(** *** Arrays *)

Lemma nth_skip (k : nat) : forall (l : list R) (n : nat) (d : R),
  nth n (skipn k l) d = nth (k + n) l d.
Proof.
  induction k as [| k IH]; intros l n d; [reflexivity | ].
  destruct l as [| x l]; [destruct n; reflexivity | ].
  cbn [skipn]. rewrite IH. reflexivity.
Qed.

Lemma store_length (a : list R) (i : nat) (v : R) :
  (i < length a)%nat -> length (store a i v) = length a.
Proof.
  intros Hi. unfold store.
  destruct (Nat.ltb_spec i (length a)) as [_ | Hge]; [ | lia].
  rewrite length_app. cbn [length]. rewrite length_firstn, length_skipn. lia.
Qed.

Lemma store_nth_same (a : list R) (i : nat) (v d : R) :
  (i < length a)%nat -> nth i (store a i v) d = v.
Proof.
  intros Hi. unfold store.
  destruct (Nat.ltb_spec i (length a)) as [_ | Hge]; [ | lia].
  rewrite app_nth2; rewrite length_firstn; [ | lia].
  replace (i - Nat.min i (length a))%nat with 0%nat by lia. reflexivity.
Qed.

Lemma store_nth_other (a : list R) (i j : nat) (v d : R) :
  (i < length a)%nat -> j <> i -> nth j (store a i v) d = nth j a d.
Proof.
  intros Hi Hj. unfold store.
  destruct (Nat.ltb_spec i (length a)) as [_ | Hge]; [ | lia].
  rewrite <- (firstn_skipn i a) at 3.
  destruct (Nat.lt_ge_cases j i) as [Hlt | Hgt].
  - rewrite !app_nth1 by (rewrite length_firstn; lia). reflexivity.
  - rewrite !app_nth2 by (rewrite length_firstn; lia).
    rewrite length_firstn. replace (Nat.min i (length a)) with i by lia.
    destruct (j - i)%nat as [| m] eqn:E; [lia | ].
    cbn [nth]. rewrite !nth_skip. f_equal. lia.
Qed.

Lemma newArray_length (n : nat) : length (newArray n) = n.
Proof. apply repeat_length. Qed.

(** *** One path *)

Lemma stepFactor_pos (r sigma dt Z : R) : 0 < stepFactor r sigma dt Z.
Proof. apply exp_pos. Qed.

Lemma gbmLoop_spec (fuel : nat) (r sigma dt : R) :
  forall (n i : nat) (path : list R) (g : rng) (path' : list R) (g' : rng),
  gbmLoop fuel r sigma dt n i path g = Some (path', g') ->
  (1 <= i)%nat -> (i + n <= length path)%nat ->
  length path' = length path /\
  (forall j, (j < i)%nat -> nth j path' 0 = nth j path 0) /\
  (forall j, (i <= j < i + n)%nat ->
     exists Z, nth j path' 0 = nth (j - 1) path' 0 * stepFactor r sigma dt Z) /\
  (exists k, after k g g').
Proof.
  induction n as [| n IH]; intros i path g path' g' H Hi Hlen.
  - simpl in H. unfold ret in H. inversion H; subst.
    split; [reflexivity | split; [reflexivity | split]].
    + intros j Hj. lia.
    + exists 0%nat. apply after_refl.
  - simpl in H. apply bind_Some in H. destruct H as (Z & g1 & HZ & H).
    apply generateGaussianRandom_spec, gaussianFrom_after in HZ.
    destruct HZ as (k1 & Hk1).
    fold (stepFactor r sigma dt Z) in H.
    assert (Hin : (i < length path)%nat) by lia.
    apply IH in H; [ | lia | rewrite store_length by exact Hin; lia].
    destruct H as (Hl & Hkeep & Hstep & (k2 & Hk2)).
    rewrite store_length in Hl by exact Hin.
    split; [exact Hl | split; [ | split]].
    + intros j Hj. rewrite Hkeep by lia. apply store_nth_other; [exact Hin | lia].
    + intros j Hj. destruct (Nat.eq_dec j i) as [-> | Hne].
      * exists Z. rewrite !Hkeep by lia.
        rewrite store_nth_same by exact Hin.
        rewrite store_nth_other by (try exact Hin; lia). reflexivity.
      * apply Hstep. lia.
    + exists (k1 + k2)%nat. apply (after_trans _ _ g g1 g'); assumption.
Qed.

Lemma gbmLoop_converges (r sigma dt : R) :
  forall (n i : nat) (path : list R) (g : rng),
  fair g ->
  exists path' g', converges (fun fuel => gbmLoop fuel r sigma dt n i path) g path' g'.
Proof.
  induction n as [| n IH]; intros i path g Hf.
  - exists path, g. exists 0%nat. intros fuel _. reflexivity.
  - destruct (generateGaussianRandom_converges g Hf) as (Z & g1 & (f1 & H1) & Hfrom).
    destruct (gaussianFrom_after _ _ _ Hfrom) as (k & Hk).
    assert (Hf1 : fair g1) by (apply (fair_after k g); assumption).
    destruct (IH (S i) (store path i (nth (i - 1) path 0 * stepFactor r sigma dt Z)) g1 Hf1)
      as (path' & g' & (f2 & H2)).
    exists path', g'. exists (Nat.max f1 f2). intros fuel Hfuel.
    simpl. unfold bind. rewrite H1 by lia. apply H2. lia.
Qed.

Lemma positive_prefix (f : R -> Prop) (path : list R) :
  (forall j, (j < length path)%nat -> f (nth j path 0)) -> Forall f path.
Proof.
  intros H. apply Forall_forall. intros x Hx.
  destruct (In_nth _ _ 0 Hx) as (j & Hj & <-). apply H. exact Hj.
Qed.

Lemma simulateGBMPath_spec (fuel : nat) (S0 r sigma T : R) (steps : nat)
      (g : rng) (path : list R) (g' : rng) :
  simulateGBMPath fuel S0 r sigma T steps g = Some (path, g') ->
  gbmPath S0 r sigma T steps path /\ exists k, after k g g'.
Proof.
  unfold simulateGBMPath. intros H.
  assert (Hl0 : length (newArray (steps + 1)) = (steps + 1)%nat) by apply newArray_length.
  assert (Hin : (0 < length (newArray (steps + 1)))%nat) by lia.
  apply gbmLoop_spec in H; [ | lia | rewrite store_length by exact Hin; lia].
  destruct H as (Hl & Hkeep & Hstep & Hafter).
  rewrite store_length in Hl by exact Hin. rewrite Hl0 in Hl.
  assert (H0 : nth 0 path 0 = S0).
  { rewrite Hkeep by lia. apply store_nth_same. exact Hin. }
  split; [ | exact Hafter].
  split; [exact Hl | split; [exact H0 | split]].
  - intros i Hi. apply Hstep. lia.
  - intros HS0. apply positive_prefix. rewrite Hl.
    intros j. induction j as [| j IHj]; intros Hj.
    + rewrite H0. exact HS0.
    + destruct (Hstep (S j)) as (Z & HZ); [lia | ].
      rewrite HZ. replace (S j - 1)%nat with j by lia.
      apply Rmult_lt_0_compat; [apply IHj; lia | apply stepFactor_pos].
Qed.

Lemma simulateGBMPath_converges (S0 r sigma T : R) (steps : nat) (g : rng) :
  fair g ->
  exists path g', converges (fun fuel => simulateGBMPath fuel S0 r sigma T steps) g path g'.
Proof.
  intros Hf. unfold simulateGBMPath. apply gbmLoop_converges. exact Hf.
Qed.

(** *** The main loop *)

Lemma mcLoop_spec (fuel : nat) (p : McParams) :
  forall (n : nat) (a : Accumulated) (g : rng) (a' : Accumulated) (g' : rng),
  mcLoop fuel p n a g = Some (a', g') ->
  exists paths,
    pathsOf p n paths /\
    allPaths a' = allPaths a ++ paths /\
    payoffs a' = payoffs a ++ map (discountedPayoff p) paths /\
    sumPayoff a' = sumPayoff a + sumR (map (discountedPayoff p) paths) /\
    sumPayoffSquared a'
    = sumPayoffSquared a + sumR (map square (map (discountedPayoff p) paths)) /\
    inTheMoneyCount a' = (inTheMoneyCount a + length (filter (inTheMoney p) paths))%nat /\
    exists k, after k g g'.
Proof.
  induction n as [| n IH]; intros a g a' g' H.
  - simpl in H. unfold ret in H. inversion H; subst.
    exists []. simpl. rewrite !app_nil_r, !Rplus_0_r, Nat.add_0_r.
    split; [split; [reflexivity | constructor] | ].
    repeat (split; [reflexivity | ]). exists 0%nat. apply after_refl.
  - simpl in H. apply bind_Some in H. destruct H as (path & g1 & Hpath & H).
    apply simulateGBMPath_spec in Hpath. destruct Hpath as (Hgbm & (k1 & Hk1)).
    apply IH in H.
    destruct H as (paths & (Hlen & Hall) & Hap & Hpay & Hsum & Hsq & Hitm & (k2 & Hk2)).
    cbn [allPaths payoffs sumPayoff sumPayoffSquared inTheMoneyCount] in *.
    exists (path :: paths).
    split; [split; [simpl; lia | constructor; assumption] | ].
    split; [rewrite Hap, <- app_assoc; reflexivity | ].
    split; [rewrite Hpay, <- app_assoc; reflexivity | ].
    split; [rewrite Hsum; simpl; unfold discountedPayoff; ring | ].
    split; [rewrite Hsq; simpl; unfold discountedPayoff, square; ring | ].
    split.
    + rewrite Hitm. simpl. unfold inTheMoney at 2.
      destruct (Rlt_dec 0 (payoffOf p path)); simpl; lia.
    + exists (k1 + k2)%nat. apply (after_trans _ _ g g1 g'); assumption.
Qed.

Lemma mcLoop_converges (p : McParams) :
  forall (n : nat) (a : Accumulated) (g : rng),
  fair g ->
  exists a' g', converges (fun fuel => mcLoop fuel p n a) g a' g'.
Proof.
  induction n as [| n IH]; intros a g Hf.
  - exists a, g. exists 0%nat. intros fuel _. reflexivity.
  - destruct (simulateGBMPath_converges (S0 p) (r p) (sigma p) (T p) (steps p) g Hf)
      as (path & g1 & (f1 & H1)).
    destruct (simulateGBMPath_spec _ _ _ _ _ _ _ _ _ (H1 f1 (Nat.le_refl f1)))
      as (_ & (k & Hk)).
    assert (Hf1 : fair g1) by (apply (fair_after k g); assumption).
    pose (payoff := payoffOf p path).
    destruct (IH (mkAcc (allPaths a ++ [path])
                        (payoffs a ++ [discounted p payoff])
                        (sumPayoff a + discounted p payoff)
                        (sumPayoffSquared a + discounted p payoff * discounted p payoff)
                        (if Rlt_dec 0 payoff then S (inTheMoneyCount a)
                         else inTheMoneyCount a)) g1 Hf1)
      as (a' & g' & (f2 & H2)).
    exists a', g'. exists (Nat.max f1 f2). intros fuel Hfuel.
    simpl. unfold bind. rewrite H1 by lia. apply H2. lia.
Qed.

(** *** Sorting *)

Lemma insertSorted_perm (x : R) (l : list R) : Permutation (x :: l) (insertSorted x l).
Proof.
  induction l as [| y l IH]; simpl; [apply Permutation_refl | ].
  destruct (Rle_dec (compareNumbers x y) 0); [apply Permutation_refl | ].
  apply perm_trans with (y :: x :: l); [apply perm_swap | ].
  apply perm_skip. exact IH.
Qed.

Lemma insertSorted_sorted (x : R) (l : list R) :
  Sorted Rle l -> Sorted Rle (insertSorted x l).
Proof.
  induction l as [| y l IH]; intros Hs; simpl.
  - repeat constructor.
  - unfold compareNumbers. destruct (Rle_dec (x - y) 0) as [Hle | Hgt].
    + constructor; [exact Hs | constructor; lra].
    + inversion Hs as [| ? ? Hs' Hhd]; subst.
      constructor; [apply IH; exact Hs' | ].
      destruct l as [| z l]; simpl.
      * constructor. lra.
      * unfold compareNumbers. destruct (Rle_dec (x - z) 0); constructor.
        -- lra.
        -- inversion Hhd; subst. assumption.
Qed.

Lemma sortAscending_perm (l : list R) : Permutation l (sortAscending l).
Proof.
  induction l as [| x l IH]; simpl; [constructor | ].
  apply perm_trans with (x :: sortAscending l); [apply perm_skip; exact IH | ].
  apply insertSorted_perm.
Qed.

Lemma sortAscending_sorted (l : list R) : Sorted Rle (sortAscending l).
Proof.
  induction l as [| x l IH]; simpl; [constructor | ].
  apply insertSorted_sorted. exact IH.
Qed.


(** *** Rounding down *)

Lemma floor_twentieth (n : nat) (x : R) :
  x * 20 = INR n -> Math_floor x = Z.of_nat (n / 20).
Proof.
  intros Hx. unfold Math_floor. symmetry. apply Int_part_spec.
  pose proof (Nat.div_mod_eq n 20) as Hdm.
  pose proof (Nat.mod_upper_bound n 20) as Hlt.
  set (q := (n / 20)%nat) in *. set (m := (n mod 20)%nat) in *.
  rewrite <- INR_IZR_INZ.
  assert (Hn : INR n = 20 * INR q + INR m).
  { rewrite Hdm at 1. rewrite plus_INR, mult_INR. simpl. lra. }
  assert (Hm : 0 <= INR m < 20).
  { split; [apply pos_INR | ].
    replace 20 with (INR 20) by (simpl; lra). apply lt_INR. apply Hlt. lia. }
  lra.
Qed.

Lemma index5th_eq (n : nat) : Math_floor (INR n * 0.05) = Z.of_nat (n / 20).
Proof. apply floor_twentieth. lra. Qed.

Lemma step_eq (n : nat) :
  Z.to_nat (Z.max 1 (Math_floor (INR n / 20))) = Nat.max 1 (n / 20).
Proof. rewrite (floor_twentieth n) by lra. lia. Qed.

Lemma index5th_in_range (n : nat) : (0 < n)%nat -> (n / 20 < n)%nat.
Proof. intros Hn. apply Nat.div_lt; lia. Qed.

(** *** The paths kept for display *)

Lemma strided_length (count step i : nat) (allPaths : list (list R)) :
  length (strided count step i allPaths) = count.
Proof.
  revert i. induction count as [| c IH]; intros i; simpl; [reflexivity | ].
  rewrite IH. reflexivity.
Qed.

Lemma strided_nth (count step : nat) (allPaths : list (list R)) :
  forall (i j : nat), (j < count)%nat ->
  nth j (strided count step i allPaths) [] = nth (i + j * step) allPaths [].
Proof.
  induction count as [| c IH]; intros i j Hj; [lia | ].
  destruct j as [| j]; simpl.
  - f_equal. lia.
  - rewrite IH by lia. f_equal. lia.
Qed.

Lemma visualLoop_spec (iterations step : nat) (allPaths : list (list R)) :
  forall (fuel i : nat) (visualPaths visualPaths' : list (list R)),
  visualLoop fuel iterations step i allPaths visualPaths = Some visualPaths' ->
  exists count,
    (forall j, (j < count)%nat -> (i + j * step < iterations)%nat) /\
    (iterations <= i + count * step)%nat /\
    visualPaths'
    = visualPaths ++ firstn (20 - length visualPaths) (strided count step i allPaths).
Proof.
  induction fuel as [| fuel IH]; intros i vp vp' H.
  - simpl in H. destruct (Nat.ltb_spec i iterations) as [Hlt | Hge]; [discriminate | ].
    inversion H; subst. exists 0%nat.
    split; [intros j Hj; lia | split; [lia | ]].
    simpl. rewrite firstn_nil, app_nil_r. reflexivity.
  - simpl in H. destruct (Nat.ltb_spec i iterations) as [Hlt | Hge].
    + apply IH in H. destruct H as (count & Hin & Hout & Heq).
      exists (S count).
      split; [ | split; [simpl; lia | ]].
      * intros j Hj. destruct j as [| j]; [lia | ].
        specialize (Hin j). simpl. lia.
      * rewrite Heq. cbn [strided].
        destruct (Nat.ltb_spec (length vp) 20) as [Hroom | Hfull].
        -- rewrite length_app. cbn [length].
           replace (20 - length vp)%nat with (S (20 - (length vp + 1))) by lia.
           cbn [firstn]. rewrite <- app_assoc. reflexivity.
        -- replace (20 - length vp)%nat with 0%nat by lia. reflexivity.
    + inversion H; subst. exists 0%nat.
      split; [intros j Hj; lia | split; [lia | ]].
      simpl. rewrite firstn_nil, app_nil_r. reflexivity.
Qed.

Lemma visualLoop_runs (iterations step : nat) (allPaths : list (list R)) :
  (1 <= step)%nat ->
  forall (fuel i : nat) (visualPaths : list (list R)),
  (iterations - i <= fuel)%nat ->
  exists visualPaths', visualLoop fuel iterations step i allPaths visualPaths = Some visualPaths'.
Proof.
  intros Hstep. induction fuel as [| fuel IH]; intros i vp Hfuel; simpl.
  - destruct (Nat.ltb_spec i iterations) as [Hlt | Hge]; [lia | ].
    exists vp. reflexivity.
  - destruct (Nat.ltb_spec i iterations) as [Hlt | Hge].
    + apply IH. lia.
    + exists vp. reflexivity.
Qed.

(** More fuel does not change what the loop returns. *)
Lemma visualLoop_more_fuel (iterations step : nat) (allPaths : list (list R)) :
  forall (fuel fuel' i : nat) (visualPaths visualPaths' : list (list R)),
  visualLoop fuel iterations step i allPaths visualPaths = Some visualPaths' ->
  (fuel <= fuel')%nat ->
  visualLoop fuel' iterations step i allPaths visualPaths = Some visualPaths'.
Proof.
  induction fuel as [| fuel IH]; intros fuel' i vp vp' H Hle.
  - simpl in H. destruct fuel'; simpl;
      destruct (Nat.ltb_spec i iterations) as [Hlt | Hge];
      try discriminate; exact H.
  - destruct fuel' as [| fuel']; [lia | ].
    simpl in *. destruct (Nat.ltb_spec i iterations) as [Hlt | Hge]; [ | exact H].
    apply IH; [exact H | lia].
Qed.

(** *** A whole run *)

Lemma runMonteCarloSimulation_spec (fuel : nat) (p : McParams) (g : rng)
      (res : SimulationResult) (g' : rng) :
  runMonteCarloSimulation fuel p g = Some (res, g') ->
  exists paths, runOf p paths res.
Proof.
  unfold runMonteCarloSimulation. intros H.
  apply bind_Some in H. destruct H as (a & g1 & Hloop & H).
  apply bind_Some in H. destruct H as (vp & g2 & Hvis & H).
  unfold ret in H. inversion H; subst res g'. clear H.
  apply mcLoop_spec in Hloop.
  destruct Hloop as (paths & Hpaths & Hall & Hpay & Hsum & Hsq & Hitm & _).
  cbn [allPaths payoffs sumPayoff sumPayoffSquared inTheMoneyCount] in *.
  rewrite Rplus_0_l in Hsum, Hsq.
  unfold liftOption in Hvis.
  destruct (visualLoop _ _ _ _ _ _) as [vp0 | ] eqn:Hv; [ | discriminate].
  inversion Hvis; subst vp0 g2. clear Hvis.
  apply visualLoop_spec in Hv. destruct Hv as (count & Hin & Hout & Heq).
  exists paths. constructor; cbn [optionPrice standardError inTheMoneyProbability
                                   valueAtRisk visualPaths].
  - exact Hpaths.
  - rewrite Hsum. reflexivity.
  - rewrite Hsum, Hsq. reflexivity.
  - rewrite Hitm. reflexivity.
  - rewrite Hsum, Hpay. reflexivity.
  - exists count. cbv zeta. rewrite Hall in Heq.
    split; [exact Hin | split; [exact Hout | exact Heq]].
Qed.

Lemma runMonteCarloSimulation_converges (p : McParams) (g : rng) :
  fair g ->
  exists res g', converges (fun fuel => runMonteCarloSimulation fuel p) g res g'.
Proof.
  intros Hf.
  destruct (mcLoop_converges p (iterations p) (mkAcc [] [] 0 0 0%nat) g Hf)
    as (a & g1 & (f1 & H1)).
  set (step := Z.to_nat (Z.max 1 (Math_floor (INR (iterations p) / 20)))).
  assert (Hstep : (1 <= step)%nat) by (unfold step; lia).
  destruct (visualLoop_runs (iterations p) step (allPaths a) Hstep
                            (iterations p) 0 [] ltac:(lia)) as (vp & Hvp).
  eexists. exists g1. exists (Nat.max f1 (iterations p)). intros fuel Hfuel.
  unfold runMonteCarloSimulation, bind. rewrite H1 by lia.
  fold step. unfold liftOption.
  rewrite (visualLoop_more_fuel _ _ _ _ fuel _ _ _ Hvp) by lia.
  reflexivity.
Qed.

End MonteCarloFacts.

Module RunFacts.
Import MonteCarlo MonteCarloSpec MonteCarloFacts.

(** *** The paths of a run *)

Lemma mcLoop_simulated (fuel : nat) (p : McParams) :
  forall (n : nat) (a : Accumulated) (g : rng) (a' : Accumulated) (g' : rng),
  mcLoop fuel p n a g = Some (a', g') ->
  exists paths,
    simulatedPaths fuel p n g = Some (paths, g') /\
    allPaths a' = allPaths a ++ paths.
Proof.
  induction n as [| n IH]; intros a g a' g' H.
  - simpl in H. unfold ret in H. inversion H; subst.
    exists []. split; [reflexivity | rewrite app_nil_r; reflexivity].
  - simpl in H. apply bind_Some in H. destruct H as (path & g1 & Hpath & H).
    apply IH in H. destruct H as (paths & Hsim & Hall). cbn [allPaths] in Hall.
    exists (path :: paths). split.
    + simpl. unfold bind. rewrite Hpath, Hsim. reflexivity.
    + rewrite Hall, <- app_assoc. reflexivity.
Qed.

(** What a run returns is written over the very paths it simulated. *)
Lemma runMonteCarloSimulation_pinned (fuel : nat) (p : McParams) (g : rng)
      (res : SimulationResult) (g' : rng) :
  runMonteCarloSimulation fuel p g = Some (res, g') ->
  exists paths,
    simulatedPaths fuel p (iterations p) g = Some (paths, g') /\
    runOf p paths res.
Proof.
  intros H. unfold runMonteCarloSimulation in H.
  apply bind_Some in H. destruct H as (a & g1 & Hloop & H).
  apply bind_Some in H. destruct H as (vp & g2 & Hvis & H).
  unfold ret in H. inversion H; subst res g'. clear H.
  unfold liftOption in Hvis.
  destruct (visualLoop _ _ _ _ _ _) as [vp0 | ] eqn:Hv; [ | discriminate].
  inversion Hvis; subst vp0 g2. clear Hvis.
  destruct (mcLoop_simulated _ _ _ _ _ _ _ Hloop) as (paths & Hsim & Hall).
  cbn [allPaths app] in Hall.
  apply mcLoop_spec in Hloop.
  destruct Hloop as (paths' & Hpaths & Hall' & Hpay & Hsum & Hsq & Hitm & _).
  cbn [allPaths payoffs sumPayoff sumPayoffSquared inTheMoneyCount app]
    in Hall', Hpay, Hsum, Hsq, Hitm.
  assert (E : paths' = paths) by (rewrite <- Hall, <- Hall'; reflexivity).
  rewrite E in Hpaths, Hpay, Hsum, Hsq, Hitm. clear E Hall' paths'.
  rewrite Rplus_0_l in Hsum, Hsq.
  apply visualLoop_spec in Hv. destruct Hv as (count & Hin & Hout & Heq).
  rewrite Hall in Heq.
  exists paths. split; [exact Hsim | ].
  constructor; cbn [optionPrice standardError inTheMoneyProbability
                    valueAtRisk visualPaths].
  - exact Hpaths.
  - rewrite Hsum. reflexivity.
  - rewrite Hsum, Hsq. reflexivity.
  - rewrite Hitm. reflexivity.
  - rewrite Hsum, Hpay. reflexivity.
  - exists count. cbv zeta.
    split; [exact Hin | split; [exact Hout | exact Heq]].
Qed.

(** *** The ascending rearrangement is unique *)

Lemma sorted_least (x : R) (l : list R) :
  Sorted Rle (x :: l) -> forall y, In y (x :: l) -> x <= y.
Proof.
  intros Hs y Hy. apply Sorted_StronglySorted in Hs; [ | intros a b c; apply Rle_trans].
  inversion Hs as [| ? ? _ Hall]; subst. rewrite Forall_forall in Hall.
  destruct Hy as [<- | Hy]; [lra | apply Hall; exact Hy].
Qed.

Lemma sorted_unique (l1 : list R) :
  forall l2, Sorted Rle l1 -> Sorted Rle l2 -> Permutation l1 l2 -> l1 = l2.
Proof.
  induction l1 as [| x l1 IH]; intros l2 H1 H2 Hp.
  - apply Permutation_nil in Hp. subst. reflexivity.
  - destruct l2 as [| y l2]; [apply Permutation_sym, Permutation_nil in Hp; discriminate | ].
    assert (Hxy : x = y).
    { apply Rle_antisym.
      - apply (sorted_least x l1 H1). apply (Permutation_in _ (Permutation_sym Hp)).
        left. reflexivity.
      - apply (sorted_least y l2 H2). apply (Permutation_in _ Hp). left. reflexivity. }
    subst y. f_equal. apply IH.
    + inversion H1; assumption.
    + inversion H2; assumption.
    + apply Permutation_cons_inv in Hp. exact Hp.
Qed.

Lemma sorted_is_sortAscending (l sorted : list R) :
  Permutation l sorted -> Sorted Rle sorted -> sorted = sortAscending l.
Proof.
  intros Hp Hs. apply sorted_unique; [exact Hs | apply sortAscending_sorted | ].
  apply perm_trans with l; [apply Permutation_sym; exact Hp | apply sortAscending_perm].
Qed.

(** *** The paths kept for display, counted *)

Lemma visual_selection (N count : nat) (paths : list (list R)) :
  let step := Nat.max 1 (N / 20) in
  (forall j, (j < count)%nat -> (j * step < N)%nat) ->
  (N <= count * step)%nat ->
  firstn 20 (strided count step 0 paths)
  = map (fun j => nth (j * step) paths []) (seq 0 (Nat.min N 20)) /\
  (forall j, (j < Nat.min N 20)%nat -> (j * step < N)%nat).
Proof.
  cbv zeta. intros Hin Hout.
  assert (Hcount : Nat.min 20 count = Nat.min N 20).
  { pose proof (Nat.div_mod_eq N 20) as Hdm.
    pose proof (Nat.mod_upper_bound N 20 ltac:(lia)) as Hmod.
    destruct (Nat.lt_ge_cases N 20) as [Hsmall | Hlarge].
    - assert (Hq : (N / 20 = 0)%nat) by (apply Nat.div_small; exact Hsmall).
      rewrite Hq in *. change (Nat.max 1 0) with 1%nat in *.
      destruct count as [| c]; [lia | ].
      specialize (Hin c ltac:(lia)). lia.
    - assert (Hq : (1 <= N / 20)%nat) by lia.
      replace (Nat.max 1 (N / 20)) with (N / 20)%nat in * by lia.
      destruct (Nat.lt_ge_cases count 20) as [Hc | Hc]; [ | lia].
      assert (count * (N / 20) <= 19 * (N / 20))%nat by (apply Nat.mul_le_mono_r; lia).
      lia. }
  split.
  - apply (nth_ext _ _ [] []).
    + rewrite length_firstn, strided_length, length_map, length_seq. exact Hcount.
    + intros j Hj. rewrite length_firstn, strided_length in Hj.
      rewrite nth_firstn. destruct (Nat.ltb_spec j 20) as [_ | Hge]; [ | lia].
      rewrite strided_nth by lia.
      set (f := fun j => nth (j * Nat.max 1 (N / 20)) paths []).
      assert (Hlen : (j < length (map f (seq 0 (Nat.min N 20))))%nat)
        by (rewrite length_map, length_seq; lia).
      rewrite (nth_indep (map f (seq 0 (Nat.min N 20))) [] (f 0%nat) Hlen).
      rewrite (map_nth f), seq_nth by lia. reflexivity.
  - intros j Hj. apply Hin. lia.
Qed.

End RunFacts.

(** *** The dip run, evaluated *)

Module DipRunFacts.
Import MonteCarlo MonteCarloSpec MonteCarloFacts.

Lemma gaussian_no_resample (fuel : nat) (g : rng) :
  g 0%nat <> 0 -> g 1%nat <> 0 ->
  generateGaussianRandom (S fuel) g
  = Some (sqrt (-2.0 * ln (g 0%nat)) * cos (2.0 * PI * g 1%nat), shift 1 (shift 1 g)).
Proof.
  intros H0 H1. unfold generateGaussianRandom, bind.
  rewrite whileZero_zero, (whileZero_nonzero fuel (g 0%nat)) by exact H0.
  rewrite whileZero_zero, (whileZero_nonzero fuel (shift 1 g 0%nat)) by exact H1.
  reflexivity.
Qed.

Lemma path_single_step (fuel : nat) (p : McParams) (g : rng) :
  steps p = 1%nat -> g 0%nat <> 0 -> g 1%nat <> 0 ->
  simulateGBMPath (S fuel) (S0 p) (r p) (sigma p) (T p) (steps p) g
  = Some (singleStepPath p (g 0%nat) (g 1%nat), shift 1 (shift 1 g)).
Proof.
  intros Hs H0 H1. rewrite Hs. unfold simulateGBMPath.
  cbn [gbmLoop]. unfold bind. rewrite gaussian_no_resample by assumption.
  reflexivity.
Qed.

Lemma simulatedPaths_single_step (fuel : nat) (p : McParams) :
  steps p = 1%nat ->
  forall (n : nat) (g : rng), (forall k, g k <> 0) ->
  exists g',
    simulatedPaths (S fuel) p n g
    = Some (map (fun i => singleStepPath p (g (2 * i)%nat) (g (2 * i + 1)%nat)) (seq 0 n), g').
Proof.
  intros Hs. induction n as [| n IH]; intros g Hg.
  - exists g. reflexivity.
  - assert (Hg2 : forall k, shift 1 (shift 1 g) k <> 0) by (intros k; apply Hg).
    destruct (IH _ Hg2) as (g' & Hrest). exists g'.
    cbn [simulatedPaths]. unfold bind.
    rewrite (path_single_step fuel p g Hs (Hg 0%nat) (Hg 1%nat)), Hrest.
    unfold ret. f_equal. f_equal. cbn [seq map]. f_equal.
    rewrite <- seq_shift, map_map. apply map_ext. intros i.
    unfold shift. f_equal; f_equal; lia.
Qed.

Lemma dipSource_nonzero (k : nat) : dipSource k <> 0.
Proof.
  unfold dipSource. destruct (Nat.even k); [lra | ].
  destruct (k =? 5)%nat; lra.
Qed.

Lemma dipSource_fair : fair dipSource.
Proof. intros n. exists n. split; [lia | apply dipSource_nonzero]. Qed.

Lemma dipSource_even (i : nat) : dipSource (2 * i)%nat = 0.5.
Proof.
  unfold dipSource. rewrite Nat.even_mul. reflexivity.
Qed.

Lemma dipSource_odd (i : nat) :
  dipSource (2 * i + 1)%nat = if (i =? 2)%nat then 0.5 else 0.25.
Proof.
  unfold dipSource. rewrite Nat.even_add, Nat.even_mul. cbn [Nat.even orb Bool.eqb].
  destruct (Nat.eqb_spec i 2) as [-> | Hne]; [reflexivity | ].
  destruct (Nat.eqb_spec (2 * i + 1)%nat 5) as [E | _]; [lia | reflexivity].
Qed.

Lemma ln_half : ln 0.5 = - ln 2.
Proof. replace 0.5 with (/ 2) by lra. apply ln_Rinv. lra. Qed.

Lemma ln_2_pos : 0 < ln 2.
Proof. rewrite <- ln_1. apply ln_increasing; lra. Qed.

Lemma flat_step : singleStepPath dipRun 0.5 0.25 = flatPath.
Proof.
  unfold singleStepPath, flatPath, stepFactor, dipRun. cbn [S0 r sigma T INR].
  replace (2.0 * PI * 0.25) with (PI / 2) by lra. rewrite cos_PI2.
  replace (1 / 1) with 1 by lra. rewrite sqrt_1.
  replace ((0.02 - 0.5 * 0.2 * 0.2) * 1 + 0.2 * 1 * (sqrt (-2.0 * ln 0.5) * 0)) with 0 by lra.
  rewrite exp_0. f_equal. f_equal. lra.
Qed.

Lemma dip_step : singleStepPath dipRun 0.5 0.5 = dipPath.
Proof.
  unfold singleStepPath, dipPath, stepFactor, dipRun. cbn [S0 r sigma T INR].
  replace (2.0 * PI * 0.5) with PI by lra. rewrite cos_PI.
  replace (1 / 1) with 1 by lra. rewrite sqrt_1, ln_half.
  replace (-2.0 * - ln 2) with (2 * ln 2) by lra.
  set (c := sqrt (2 * ln 2)).
  replace ((0.02 - 0.5 * 0.2 * 0.2) * 1 + 0.2 * 1 * (c * -1)) with (- (0.2 * c)) by lra.
  reflexivity.
Qed.

Lemma dipRun_paths (fuel : nat) :
  exists g', simulatedPaths (S fuel) dipRun 40 dipSource = Some (dipPaths, g').
Proof.
  destruct (simulatedPaths_single_step fuel dipRun eq_refl 40 dipSource dipSource_nonzero)
    as (g' & H).
  exists g'. rewrite H. f_equal. f_equal. unfold dipPaths. apply map_ext. intros i.
  rewrite dipSource_even, dipSource_odd.
  destruct (i =? 2)%nat; [apply dip_step | apply flat_step].
Qed.

Lemma dip_factor : 0 < exp (- (0.2 * sqrt (2 * ln 2))) < 1.
Proof.
  split; [apply exp_pos | ].
  rewrite <- exp_0. apply exp_increasing.
  assert (0 < sqrt (2 * ln 2)) by (apply sqrt_lt_R0; pose proof ln_2_pos; lra).
  lra.
Qed.

Lemma dipPayoff_pos : 0 < dipPayoff.
Proof.
  unfold dipPayoff. pose proof dip_factor as Hf.
  apply Rmult_lt_0_compat; [lra | apply exp_pos].
Qed.

Lemma flat_payoff : discountedPayoff dipRun flatPath = 0.
Proof.
  unfold discountedPayoff, discounted, payoffOf, flatPath, dipRun.
  cbn [optionType K r T length Nat.sub nth].
  replace (100 - 100) with 0 by lra.
  unfold Rmax. destruct (Rle_dec 0 0); ring.
Qed.

Lemma dip_payoff : discountedPayoff dipRun dipPath = dipPayoff.
Proof.
  unfold discountedPayoff, discounted, payoffOf, dipPath, dipRun, dipPayoff.
  cbn [optionType K r T length Nat.sub nth].
  pose proof dip_factor as Hf.
  rewrite Rmax_left by lra. f_equal. f_equal. lra.
Qed.

Lemma dipRun_payoffs : map (discountedPayoff dipRun) dipPaths = dipPayoffs.
Proof.
  unfold dipPaths, dipPayoffs. rewrite map_map. apply map_ext. intros i.
  destruct (i =? 2)%nat; [apply dip_payoff | apply flat_payoff].
Qed.

Lemma dipPayoffs_sum : sumR dipPayoffs = dipPayoff.
Proof. unfold dipPayoffs. simpl. lra. Qed.

Lemma dipPayoffs_sorted :
  Permutation dipPayoffs (repeat 0 39 ++ [dipPayoff]) /\
  Sorted Rle (repeat 0 39 ++ [dipPayoff]).
Proof.
  pose proof dipPayoff_pos as Hp. unfold dipPayoffs. generalize dipPayoff Hp.
  intros v Hv. split.
  - simpl. do 2 apply perm_skip. apply (Permutation_cons_append (repeat 0 37) v).
  - simpl. repeat (constructor; [ | constructor; lra]). repeat constructor.
Qed.

End DipRunFacts.

Module MonteCarloClaims.
Import MonteCarlo MonteCarloSpec MonteCarloFacts RunFacts DipRunFacts.

Lemma halves_inRange : inRange halves.
Proof. intros n. unfold halves. lra. Qed.

Lemma halves_fair : fair halves.
Proof. intros n. exists n. split; [lia | unfold halves; lra]. Qed.

(** C7: the Gaussian generator resamples every uniform draw that is exactly
    0: the [u1] whose logarithm is taken is the first answer different from
    0, so it lies in (0,1), the square root is taken of a positive number,
    and with a source that does not answer 0 for ever the generator returns
    a sample. *)
Theorem C7_gaussian_resamples (g : rng) :
  inRange g ->
  (forall fuel z g', generateGaussianRandom fuel g = Some (z, g') ->
     exists k1 k2,
       let u1 := g k1 in
       let u2 := g (S k1 + k2)%nat in
       (forall j, (j < k1)%nat -> g j = 0) /\
       (forall j, (j < k2)%nat -> g (S k1 + j)%nat = 0) /\
       0 < u1 < 1 /\ 0 < u2 < 1 /\
       ln u1 < 0 /\ 0 < -2.0 * ln u1 /\
       z = sqrt (-2.0 * ln u1) * cos (2.0 * PI * u2)) /\
  (fair g -> exists fuel z g', generateGaussianRandom fuel g = Some (z, g')).
Proof.
  intros Hr. split.
  - intros fuel z g' H. apply generateGaussianRandom_spec in H.
    destruct H as (k1 & k2 & Hn1 & Hn2 & Hz1 & Hz2 & Hz & _).
    exists k1, k2. cbv zeta in *.
    destruct (log_argument_safe (g k1) (Hr k1) Hn1) as (Hu1 & Hln & Hsq).
    destruct (log_argument_safe (g (S k1 + k2)%nat) (Hr _) Hn2) as (Hu2 & _ & _).
    split; [exact Hz1 | split; [exact Hz2 | ]].
    split; [exact Hu1 | split; [exact Hu2 | ]].
    split; [exact Hln | split; [exact Hsq | exact Hz]].
  - intros Hf. destruct (generateGaussianRandom_converges g Hf) as (z & g' & (f & H) & _).
    exists f, z, g'. apply H. lia.
Qed.

Lemma C7_gaussian_resamples_witness :
  exists fuel z g',
    generateGaussianRandom fuel halves = Some (z, g') /\
    z = sqrt (-2.0 * ln 0.5) * cos (2.0 * PI * 0.5).
Proof.
  destruct (C7_gaussian_resamples halves halves_inRange) as (Hpart & Htotal).
  destruct (Htotal halves_fair) as (fuel & z & g' & Hrun).
  exists fuel, z, g'. split; [exact Hrun | ].
  destruct (Hpart fuel z g' Hrun) as (k1 & k2 & H).
  cbv zeta in H. unfold halves in H. apply H.
Defined.

(** C10: for every S0 > 0 and steps >= 1, every path the generator returns
    has exactly steps + 1 points, begins with S0, has every point strictly
    positive, each point being the previous one times a strictly positive
    exponential factor; and with a source that does not answer 0 for ever
    the generator returns a path. *)
Theorem C10_gbm_path (S0 r sigma T : R) (steps : nat) (g : rng) :
  0 < S0 -> (1 <= steps)%nat ->
  (forall fuel path g', simulateGBMPath fuel S0 r sigma T steps g = Some (path, g') ->
     length path = (steps + 1)%nat /\
     nth 0 path 0 = S0 /\
     Forall (fun x => 0 < x) path /\
     (forall i, (1 <= i <= steps)%nat ->
        exists Z, 0 < stepFactor r sigma (T / INR steps) Z /\
                  nth i path 0 = nth (i - 1) path 0 * stepFactor r sigma (T / INR steps) Z)) /\
  (fair g -> exists fuel path g', simulateGBMPath fuel S0 r sigma T steps g = Some (path, g')).
Proof.
  intros HS0 _. split.
  - intros fuel path g' H. apply simulateGBMPath_spec in H.
    destruct H as ((Hlen & H0 & Hstep & Hpos) & _).
    split; [exact Hlen | split; [exact H0 | split; [exact (Hpos HS0) | ]]].
    intros i Hi. destruct (Hstep i Hi) as (Z & HZ).
    exists Z. split; [apply stepFactor_pos | exact HZ].
  - intros Hf. destruct (simulateGBMPath_converges S0 r sigma T steps g Hf)
      as (path & g' & (f & H)).
    exists f, path, g'. apply H. lia.
Qed.

Lemma C10_gbm_path_witness :
  exists fuel path g',
    simulateGBMPath fuel 100 0.05 0.2 1 2 halves = Some (path, g') /\
    length path = 3%nat /\ nth 0 path 0 = 100 /\ Forall (fun x => 0 < x) path.
Proof.
  destruct (C10_gbm_path 100 0.05 0.2 1 2 halves ltac:(lra) ltac:(lia))
    as (Hpart & Htotal).
  destruct (Htotal halves_fair) as (fuel & path & g' & Hrun).
  exists fuel, path, g'. split; [exact Hrun | ].
  destruct (Hpart fuel path g' Hrun) as (Hlen & H0 & Hpos & _).
  split; [exact Hlen | split; [exact H0 | exact Hpos]].
Defined.

(** C4: for every run with N > 0 iterations that returns, valueAtRisk is
    optionPrice minus the element at index floor(0.05 * N) of the ascending
    rearrangement of the N discounted payoffs of the paths the run
    simulated, optionPrice being their mean; and with a source that does not
    answer 0 for ever the run returns. *)
Theorem C4_value_at_risk (p : McParams) (g : rng) :
  (0 < iterations p)%nat ->
  (forall fuel res g', runMonteCarloSimulation fuel p g = Some (res, g') ->
     exists paths,
       simulatedPaths fuel p (iterations p) g = Some (paths, g') /\
       let discountedPayoffs := map (discountedPayoff p) paths in
       let index := Z.to_nat (Math_floor (0.05 * INR (iterations p))) in
       length discountedPayoffs = iterations p /\
       index = (iterations p / 20)%nat /\
       (index < iterations p)%nat /\
       optionPrice res = sumR discountedPayoffs / INR (iterations p) /\
       (forall sorted,
          Permutation discountedPayoffs sorted -> Sorted Rle sorted ->
          valueAtRisk res = optionPrice res - nth index sorted 0)) /\
  (fair g -> exists fuel res g', runMonteCarloSimulation fuel p g = Some (res, g')).
Proof.
  intros HN. split.
  - intros fuel res g' H. apply runMonteCarloSimulation_pinned in H.
    destruct H as (paths & Hsim & Hrun). exists paths.
    destruct Hrun as [Hpaths Hprice _ _ Hvar _].
    split; [exact Hsim | ]. cbv zeta.
    destruct Hpaths as (Hlen & _).
    assert (Hl : length (map (discountedPayoff p) paths) = iterations p)
      by (rewrite length_map; exact Hlen).
    assert (Hidx : Z.to_nat (Math_floor (0.05 * INR (iterations p)))
                   = (iterations p / 20)%nat)
      by (rewrite Rmult_comm, index5th_eq, Nat2Z.id; reflexivity).
    split; [exact Hl | split; [exact Hidx | split; [ | split; [exact Hprice | ]]]].
    + rewrite Hidx. apply index5th_in_range. exact HN.
    + intros sorted Hperm Hsorted.
      rewrite (sorted_is_sortAscending _ _ Hperm Hsorted), (Rmult_comm 0.05).
      exact Hvar.
  - intros Hf. destruct (runMonteCarloSimulation_converges p g Hf)
      as (res & g' & (f & H)).
    exists f, res, g'. apply H. lia.
Qed.

(** On the dip run the payoff of iteration 2 is the only one that is not 0:
    unsorted, index 2 holds it; sorted, index 2 holds 0. *)
Lemma C4_value_at_risk_witness :
  exists fuel res g',
    runMonteCarloSimulation fuel dipRun dipSource = Some (res, g') /\
    nth 2 dipPayoffs 0 = dipPayoff /\ 0 < dipPayoff /\
    optionPrice res = dipPayoff / INR 40 /\
    valueAtRisk res = optionPrice res - 0.
Proof.
  destruct (C4_value_at_risk dipRun dipSource ltac:(simpl; lia)) as (Hpart & Htotal).
  destruct (runMonteCarloSimulation_converges dipRun dipSource dipSource_fair)
    as (res & g' & (f & Hf)).
  assert (Hrun : runMonteCarloSimulation (S f) dipRun dipSource = Some (res, g'))
    by (apply Hf; lia).
  exists (S f), res, g'. split; [exact Hrun | ].
  split; [reflexivity | split; [apply dipPayoff_pos | ]].
  destruct (Hpart (S f) res g' Hrun) as (paths & Hsim & H).
  destruct (dipRun_paths f) as (g'' & Heval).
  change (iterations dipRun) with 40%nat in Hsim, H.
  rewrite Heval in Hsim. inversion Hsim; subst paths g''. clear Hsim.
  cbv zeta in H. rewrite dipRun_payoffs in H.
  destruct H as (_ & Hidx & _ & Hprice & Hvar).
  split.
  - rewrite Hprice, dipPayoffs_sum. reflexivity.
  - destruct dipPayoffs_sorted as (Hperm & Hsorted).
    rewrite (Hvar _ Hperm Hsorted), Hidx. reflexivity.
Defined.

(** C6: for every run with N > 0 that returns, the paths kept for display
    are min(N, 20) of the paths the run simulated (so at most 20), the j-th
    being the full path of iteration j * step with
    step = max(1, floor(N / 20)); optionPrice, standardError,
    inTheMoneyProbability and valueAtRisk are computed over all N paths,
    whatever is kept for display; and with a source that does not answer 0
    for ever the run returns. *)
Theorem C6_visual_subsample (p : McParams) (g : rng) :
  (0 < iterations p)%nat ->
  (forall fuel res g', runMonteCarloSimulation fuel p g = Some (res, g') ->
     exists paths,
       simulatedPaths fuel p (iterations p) g = Some (paths, g') /\
       let N := iterations p in
       let step := Nat.max 1 (N / 20) in
       let discountedPayoffs := map (discountedPayoff p) paths in
       length paths = N /\
       Z.of_nat step = Z.max 1 (Math_floor (INR N / 20)) /\
       visualPaths res = map (fun j => nth (j * step) paths []) (seq 0 (Nat.min N 20)) /\
       (length (visualPaths res) <= 20)%nat /\
       (forall j, (j < Nat.min N 20)%nat ->
          (j * step < N)%nat /\
          length (nth j (visualPaths res) []) = (steps p + 1)%nat) /\
       optionPrice res = sumR discountedPayoffs / INR N /\
       standardError res
       = sqrt ((sumR (map square discountedPayoffs) / INR N
                - optionPrice res * optionPrice res) / INR N) /\
       inTheMoneyProbability res
       = INR (length (filter (inTheMoney p) paths)) / INR N * 100 /\
       (forall sorted,
          Permutation discountedPayoffs sorted -> Sorted Rle sorted ->
          valueAtRisk res
          = optionPrice res - nth (Z.to_nat (Math_floor (INR N * 0.05))) sorted 0)) /\
  (fair g -> exists fuel res g', runMonteCarloSimulation fuel p g = Some (res, g')).
Proof.
  intros HN. split.
  - intros fuel res g' H. apply runMonteCarloSimulation_pinned in H.
    destruct H as (paths & Hsim & Hrun). exists paths.
    destruct Hrun as [Hpaths Hprice Herr Hitm Hvar (count & Hvis)].
    cbv zeta in *. rewrite step_eq in Hvis. destruct Hvis as (Hin & Hout & Heq).
    destruct (visual_selection (iterations p) count paths Hin Hout) as (Hsel & Hbound).
    rewrite Hsel in Heq. destruct Hpaths as (Hlen & Hall).
    split; [exact Hsim | split; [exact Hlen | ]].
    split; [rewrite <- step_eq; lia | split; [exact Heq | ]].
    split; [rewrite Heq, length_map, length_seq; lia | ].
    split; [ | split; [exact Hprice | split; [exact Herr | split; [exact Hitm | ]]]].
    + intros j Hj. split; [apply Hbound; exact Hj | ].
      rewrite Heq.
      set (f := fun j => nth (j * Nat.max 1 (iterations p / 20)) paths []).
      assert (Hl : (j < length (map f (seq 0 (Nat.min (iterations p) 20))))%nat)
        by (rewrite length_map, length_seq; exact Hj).
      rewrite (nth_indep _ [] (f 0%nat) Hl), (map_nth f), seq_nth by exact Hj.
      unfold f. rewrite Forall_forall in Hall.
      apply (Hall (nth ((0 + j) * Nat.max 1 (iterations p / 20)) paths [])).
      apply nth_In. rewrite Hlen. apply Hbound. exact Hj.
    + intros sorted Hperm Hsorted.
      rewrite (sorted_is_sortAscending _ _ Hperm Hsorted). exact Hvar.
  - intros Hf. destruct (runMonteCarloSimulation_converges p g Hf)
      as (res & g' & (f & H)).
    exists f, res, g'. apply H. lia.
Qed.

(** The dip run has 40 iterations, so stride 2: 20 paths are kept, and the
    one at position 1 is the path of iteration 2, the one that dips. *)
Lemma C6_visual_subsample_witness :
  exists fuel res g',
    runMonteCarloSimulation fuel dipRun dipSource = Some (res, g') /\
    length (visualPaths res) = 20%nat /\
    nth 0 (visualPaths res) [] = flatPath /\
    nth 1 (visualPaths res) [] = dipPath /\
    optionPrice res = dipPayoff / INR 40.
Proof.
  destruct (C6_visual_subsample dipRun dipSource ltac:(simpl; lia)) as (Hpart & Htotal).
  destruct (runMonteCarloSimulation_converges dipRun dipSource dipSource_fair)
    as (res & g' & (f & Hf)).
  assert (Hrun : runMonteCarloSimulation (S f) dipRun dipSource = Some (res, g'))
    by (apply Hf; lia).
  exists (S f), res, g'. split; [exact Hrun | ].
  destruct (Hpart (S f) res g' Hrun) as (paths & Hsim & H).
  destruct (dipRun_paths f) as (g'' & Heval).
  change (iterations dipRun) with 40%nat in Hsim, H.
  rewrite Heval in Hsim. inversion Hsim; subst paths g''. clear Hsim.
  cbv zeta in H. rewrite dipRun_payoffs in H.
  destruct H as (_ & _ & Hvis & _ & _ & Hprice & _).
  rewrite Hvis, Hprice, dipPayoffs_sum.
  split; [reflexivity | split; [reflexivity | split; reflexivity]].
Defined.

End MonteCarloClaims.

(** * The model on concrete inputs *)

Module Examples.
Import Rebalancer RebalancerFacts MonteCarlo MonteCarloSpec MonteCarloFacts.

(** The portfolio the page starts with: sell US Stocks, hold Bonds, buy
    International. *)
Example initial_portfolio_actions :
  map (fun x => (targetValue x, delta x, action x))
      (actions (calculations
         [ mkAsset "1" "US Stocks" 50000 40;
           mkAsset "2" "Bonds" 30000 30;
           mkAsset "3" "International" 20000 30 ]))
  = [ (40000, -10000, SELL); (30000, 0, HOLD); (30000, 10000, BUY) ].
Proof.
  rewrite actions_map, totalValue_sum. simpl.
  replace ((50000 + (30000 + (20000 + 0))) * 40 / 100) with 40000 by lra.
  replace ((50000 + (30000 + (20000 + 0))) * 30 / 100) with 30000 by lra.
  replace (40000 - 50000) with (-10000) by lra.
  replace (30000 - 30000) with 0 by lra.
  replace (30000 - 20000) with 10000 by lra.
  unfold actionOf.
  repeat (destruct (Rlt_dec _ _); try lra). reflexivity.
Qed.

(** A source whose first answer is 0: the loop draws twice. *)
Example resample_once :
  let g := fun n => match n with O => 0 | _ => 0.5 end in
  whileZero 1 0 g = None /\
  whileZero 2 0 g = Some (0.5, shift 1 (shift 1 g)).
Proof.
  cbv zeta. split.
  - rewrite whileZero_zero. cbv beta iota. apply whileZero_zero_out.
  - rewrite whileZero_zero. cbv beta iota. rewrite whileZero_zero.
    apply whileZero_nonzero. unfold shift. simpl. lra.
Qed.

Example sort_three : sortAscending [3; 1; 2] = [1; 2; 3].
Proof.
  unfold sortAscending. cbn. unfold compareNumbers.
  destruct (Rle_dec (1 - 2) 0); [ | lra]. cbn. unfold compareNumbers.
  destruct (Rle_dec (3 - 1) 0); [lra | ].
  destruct (Rle_dec (3 - 2) 0); [lra | ]. reflexivity.
Qed.

(** Five iterations at stride 2 keep the paths of iterations 0, 2 and 4. *)
Example visual_stride (a b c d e : list R) :
  visualLoop 5 5 2 0 [a; b; c; d; e] [] = Some [a; c; e].
Proof. reflexivity. Qed.

Example store_inside : store [1; 2; 3] 1 5 = [1; 5; 3].
Proof. reflexivity. Qed.

End Examples.

(** * Further properties of the code *)

Module PricerExtras.
Import BlackScholes BlackScholesFacts.

Lemma discount_pos (K r T : R) : 0 < K -> 0 < K * exp (- r * T).
Proof. intros HK. apply Rmult_lt_0_compat; [exact HK | apply exp_pos]. Qed.

Lemma sqrt_T_sq (T : R) : 0 < T -> sqrt T * sqrt T = T.
Proof. intros HT. apply sqrt_sqrt. lra. Qed.

(** X1: away from 0, [normalCDF] at -x is one minus [normalCDF] at x; at 0
    it is below one half, by less than 2e-7. *)
Theorem X1_normalCDF_reflection (x : R) :
  (x <> 0 -> normalCDF (- x) = 1 - normalCDF x) /\
  0.5 - 2.0e-7 < normalCDF 0 < 0.5.
Proof.
  split.
  - intros Hx. pose proof (normalCDF_sym x Hx). lra.
  - rewrite normalCDF_0. lra.
Qed.

Lemma X1_normalCDF_reflection_witness : normalCDF (- 1) = 1 - normalCDF 1.
Proof. apply (X1_normalCDF_reflection 1). lra. Defined.

(** X2: for valid input the call is priced below the spot and the put below
    the discounted strike. *)
Theorem X2_price_upper_bounds (S K T r sigma : R) :
  valid S K T sigma ->
  callPrice (calculateBlackScholes S K T r sigma) < S /\
  putPrice (calculateBlackScholes S K T r sigma) < K * exp (- r * T).
Proof.
  intros (HS & HK & _ & _).
  unfold calculateBlackScholes; cbn [callPrice putPrice].
  pose proof (discount_pos K r T HK) as HKe.
  set (d1 := d1_of S K T r sigma). set (d2 := d1 - sigma * sqrt T).
  pose proof (normalCDF_range d1) as H1. pose proof (normalCDF_range d2) as H2.
  pose proof (normalCDF_range (- d1)) as H3. pose proof (normalCDF_range (- d2)) as H4.
  set (Ke := K * exp (- r * T)) in *.
  split; nra.
Qed.

Lemma X2_price_upper_bounds_witness :
  callPrice (calculateBlackScholes 100 100 1 0.05 0.2) < 100 /\
  putPrice (calculateBlackScholes 100 100 1 0.05 0.2) < 100 * exp (- (0.05) * 1).
Proof. apply (X2_price_upper_bounds 100 100 1 0.05 0.2). unfold valid; lra. Defined.

(** X3: for valid input vega and rho are never negative, and with a rate
    that is not negative theta is never positive. *)
Theorem X3_greek_signs (S K T r sigma : R) :
  valid S K T sigma ->
  0 <= vega (calculateBlackScholes S K T r sigma) /\
  0 <= rho (calculateBlackScholes S K T r sigma) /\
  (0 <= r -> theta (calculateBlackScholes S K T r sigma) <= 0).
Proof.
  intros (HS & HK & HT & Hs).
  unfold calculateBlackScholes; cbn [vega rho theta].
  pose proof (discount_pos K r T HK) as HKe.
  set (d1 := d1_of S K T r sigma). set (d2 := d1 - sigma * sqrt T).
  pose proof (normalCDF_range d2) as H2.
  pose proof (normalPDF_pos d1) as Hn.
  pose proof (sqrt_lt_R0 T HT) as Hq.
  assert (HSn : 0 < S * normalPDF d1) by (apply Rmult_lt_0_compat; assumption).
  assert (HKN : 0 < K * exp (- r * T) * normalCDF d2)
    by (apply Rmult_lt_0_compat; lra).
  split; [ | split].
  - left. apply Rdiv_lt_0_compat; [ | lra]. apply Rmult_lt_0_compat; assumption.
  - left. apply Rdiv_lt_0_compat; [ | lra].
    replace (K * T * exp (- r * T) * normalCDF d2)
      with (T * (K * exp (- r * T) * normalCDF d2)) by ring.
    apply Rmult_lt_0_compat; assumption.
  - intros Hr.
    assert (Hfirst : 0 < S * normalPDF d1 * sigma / (2 * sqrt T)).
    { apply Rdiv_lt_0_compat; [apply Rmult_lt_0_compat; assumption | lra]. }
    assert (Hsecond : 0 <= r * K * exp (- r * T) * normalCDF d2).
    { replace (r * K * exp (- r * T) * normalCDF d2)
        with (r * (K * exp (- r * T) * normalCDF d2)) by ring.
      apply Rmult_le_pos; lra. }
    unfold Rdiv in *. rewrite <- Ropp_mult_distr_l. lra.
Qed.

Lemma X3_greek_signs_witness :
  0 <= vega (calculateBlackScholes 100 100 1 0.05 0.2) /\
  0 <= rho (calculateBlackScholes 100 100 1 0.05 0.2) /\
  theta (calculateBlackScholes 100 100 1 0.05 0.2) <= 0.
Proof.
  destruct (X3_greek_signs 100 100 1 0.05 0.2) as (Hv & Hr & Ht); [unfold valid; lra | ].
  split; [exact Hv | split; [exact Hr | apply Ht; lra]].
Defined.

(** X4: for valid input the returned vega and gamma satisfy
    100 vega = S^2 sigma T gamma. *)
Theorem X4_vega_gamma (S K T r sigma : R) :
  valid S K T sigma ->
  100 * vega (calculateBlackScholes S K T r sigma)
  = S * S * sigma * T * gamma (calculateBlackScholes S K T r sigma).
Proof.
  intros (HS & HK & HT & Hs).
  unfold calculateBlackScholes; cbn [vega gamma].
  pose proof (sqrt_lt_R0 T HT) as Hq.
  pose proof (sqrt_T_sq T HT) as Hqq.
  set (n := normalPDF (d1_of S K T r sigma)).
  replace (S * S * sigma * T * (n / (S * sigma * sqrt T)))
    with (S * S * sigma * (sqrt T * sqrt T) * (n / (S * sigma * sqrt T)))
    by (rewrite Hqq; reflexivity).
  field. lra.
Qed.

Lemma X4_vega_gamma_witness :
  100 * vega (calculateBlackScholes 100 100 1 0.05 0.2)
  = 100 * 100 * 0.2 * 1 * gamma (calculateBlackScholes 100 100 1 0.05 0.2).
Proof. apply (X4_vega_gamma 100 100 1 0.05 0.2). unfold valid; lra. Defined.

(** X5: [normalPDF] is never negative, is even, and is largest at 0, where
    it is 1 / sqrt(2 pi). *)
Theorem X5_normalPDF_shape (x : R) :
  0 <= normalPDF x /\
  normalPDF (- x) = normalPDF x /\
  normalPDF x <= normalPDF 0 /\
  normalPDF 0 = 1 / sqrt (2 * PI).
Proof.
  assert (Hs : 0 < sqrt (2 * PI)) by (apply sqrt_lt_R0; pose proof PI_RGT_0; lra).
  assert (H0 : normalPDF 0 = 1 / sqrt (2 * PI)).
  { unfold normalPDF. replace (-0.5 * 0 * 0) with 0 by lra. rewrite exp_0. reflexivity. }
  split; [left; apply normalPDF_pos | split; [ | split; [ | exact H0]]].
  - unfold normalPDF. replace (-0.5 * - x * - x) with (-0.5 * x * x) by lra. reflexivity.
  - rewrite H0. unfold normalPDF.
    assert (He : exp (-0.5 * x * x) <= 1).
    { apply exp_nonpos_le_1. pose proof (Rle_0_sqr x) as Hq. unfold Rsqr in Hq. lra. }
    unfold Rdiv. apply Rmult_le_compat_r; [left; apply Rinv_0_lt_compat; exact Hs | exact He].
Qed.

(** X6: scaling spot and strike by the same positive factor scales both
    prices, theta, vega and rho by that factor, leaves delta as it is and
    divides gamma by the factor. *)
Theorem X6_price_homogeneity (c S K T r sigma : R) :
  0 < c -> valid S K T sigma ->
  let res := calculateBlackScholes S K T r sigma in
  let scaled := calculateBlackScholes (c * S) (c * K) T r sigma in
  callPrice scaled = c * callPrice res /\
  putPrice scaled = c * putPrice res /\
  delta scaled = delta res /\
  gamma scaled = gamma res / c /\
  theta scaled = c * theta res /\
  vega scaled = c * vega res /\
  rho scaled = c * rho res.
Proof.
  intros Hc (HS & HK & HT & Hs). cbv zeta.
  pose proof (sqrt_lt_R0 T HT) as Hq.
  assert (Hd : d1_of (c * S) (c * K) T r sigma = d1_of S K T r sigma).
  { unfold d1_of. replace (c * S / (c * K)) with (S / K) by (field; lra). reflexivity. }
  unfold calculateBlackScholes;
    cbn [callPrice putPrice delta gamma theta vega rho].
  rewrite Hd.
  split; [ring | split; [ring | split; [reflexivity | ]]].
  split; [field; lra | split; [field; lra | split; [field | field]]].
Qed.

Lemma X6_price_homogeneity_witness :
  callPrice (calculateBlackScholes (2 * 100) (2 * 100) 1 0.05 0.2)
  = 2 * callPrice (calculateBlackScholes 100 100 1 0.05 0.2).
Proof.
  apply (X6_price_homogeneity 2 100 100 1 0.05 0.2); [lra | unfold valid; lra].
Defined.

End PricerExtras.

Module ChartExtras.
Import BlackScholes PriceChart.

Section WithFormatting.

Variable toFixed : nat -> R -> string.

(** A loop whose step is not positive never gets past [maxS]. *)
Lemma chartLoop_stuck (maxS step K T r sigma : R) :
  step <= 0 ->
  forall (fuel : nat) (price : R) (data : list ChartRow),
  price <= maxS ->
  chartLoop toFixed fuel price maxS step K T r sigma data = None.
Proof.
  intros Hstep. induction fuel as [| fuel IH]; intros price data Hle; simpl;
    destruct (Rle_dec price maxS) as [_ | Hgt]; try lra; try reflexivity.
  apply IH. lra.
Qed.

(** X7: with S = 0 the chart loop never ends (its step is 0), whatever the
    fuel; with S < 0 the loop body is never entered and the chart is empty. *)
Theorem X7_chart_degenerate (fuel : nat) (K T r sigma : R) :
  chartData toFixed fuel 0 K T r sigma = None /\
  (forall S, S < 0 -> chartData toFixed fuel S K T r sigma = Some []).
Proof.
  split.
  - unfold chartData. apply chartLoop_stuck; lra.
  - intros S HS. unfold chartData.
    destruct fuel; simpl; destruct (Rle_dec (S * 0.5) (S * 1.5)); try lra; reflexivity.
Qed.

End WithFormatting.

Lemma X7_chart_degenerate_witness :
  chartData (fun _ _ => EmptyString) 60 (-1) 100 1 5 20 = Some [].
Proof. apply (X7_chart_degenerate (fun _ _ => EmptyString) 60 100 1 5 20). lra. Defined.

End ChartExtras.

Module PortfolioExtras.
Import Rebalancer RebalancerFacts Portfolio.

Lemma sumR_map_minus {A : Type} (f g : A -> R) (l : list A) :
  sumR (map (fun a => f a - g a) l) = sumR (map f l) - sumR (map g l).
Proof.
  induction l as [| a l IH]; simpl; [ring | rewrite IH; ring].
Qed.

Lemma action_of_delta (assets : list Asset) :
  Forall (fun x => action x = actionOf (delta x) /\
                   delta x = targetValue x - currentValue (asset x) /\
                   targetValue x
                   = totalValue (calculations assets) * targetAllocation (asset x) / 100)
         (actions (calculations assets)).
Proof.
  rewrite actions_map. apply Forall_forall. intros x Hx.
  apply in_map_iff in Hx. destruct Hx as (a & <- & _).
  cbn [action delta targetValue asset]. repeat split; reflexivity.
Qed.

Lemma Rabs_le_bounds (d c : R) : Rabs d <= c -> - c <= d <= c.
Proof. unfold Rabs. destruct (Rcase_abs d); lra. Qed.

Lemma actionOf_hold_iff (d : R) : actionOf d = HOLD <-> Rabs d <= 0.01.
Proof.
  unfold actionOf.
  destruct (Rlt_dec 0.01 d) as [Hb | Hb]; [ | destruct (Rlt_dec d (-0.01)) as [Hs | Hs]].
  - split; [discriminate | ]. intros H. apply Rabs_le_bounds in H. lra.
  - split; [discriminate | ]. intros H. apply Rabs_le_bounds in H. lra.
  - split; [ | reflexivity]. intros _. apply Rabs_le. lra.
Qed.

Lemma actionableItems_filter (assets : list Asset) :
  actionableItems (calculations assets)
  = filter (fun a => negb (isHold (action a))) (actions (calculations assets)).
Proof. reflexivity. Qed.

(** X9: the deltas add up to totalValue * (totalAllocation - 100) / 100, so
    with allocations that sum to exactly 100 the buys pay for the sells. *)
Theorem X9_deltas_sum (assets : list Asset) :
  let rep := calculations assets in
  sumR (map delta (actions rep)) = totalValue rep * (totalAllocation rep - 100) / 100 /\
  (totalAllocation rep = 100 -> sumR (map delta (actions rep)) = 0).
Proof.
  cbv zeta.
  assert (H : sumR (map delta (actions (calculations assets)))
              = totalValue (calculations assets)
                * (totalAllocation (calculations assets) - 100) / 100).
  { rewrite actions_map, map_map. cbn [delta].
    rewrite (sumR_map_minus
               (fun a => totalValue (calculations assets) * targetAllocation a / 100)
               currentValue).
    rewrite sum_scaled, <- totalValue_sum, <- totalAllocation_sum. field. }
  split; [exact H | ]. intros H100. rewrite H, H100. field.
Qed.

Lemma X9_deltas_sum_witness :
  sumR (map delta (actions (calculations
    [ mkAsset "1" "US Stocks" 50000 40;
      mkAsset "2" "Bonds" 30000 30;
      mkAsset "3" "International" 20000 30 ]))) = 0.
Proof.
  apply X9_deltas_sum. rewrite totalAllocation_sum. simpl. lra.
Defined.

(** X10: actionableItems are exactly the actions whose delta is more than a
    cent away from 0, in the order of the assets; none of them is a HOLD. *)
Theorem X10_actionable_items (assets : list Asset) :
  let rep := calculations assets in
  actionableItems rep = filter (fun x => Rgtb (Rabs (delta x)) 0.01) (actions rep) /\
  Forall (fun x => action x <> HOLD) (actionableItems rep).
Proof.
  cbv zeta. split.
  - rewrite actionableItems_filter.
    apply filter_ext_in. intros x Hx.
    pose proof (action_of_delta assets) as Hall. rewrite Forall_forall in Hall.
    destruct (Hall x Hx) as (Hact & _).
    unfold Rgtb. destruct (Rlt_dec 0.01 (Rabs (delta x))) as [Hfar | Hnear].
    + destruct (action x) eqn:E; try reflexivity.
      symmetry in Hact. apply actionOf_hold_iff in Hact. lra.
    + assert (Hh : actionOf (delta x) = HOLD) by (apply actionOf_hold_iff; lra).
      rewrite Hact, Hh. reflexivity.
  - rewrite actionableItems_filter. apply Forall_forall. intros x Hx.
    apply filter_In in Hx. destruct Hx as (_ & Hx).
    destruct (action x); simpl in Hx; discriminate.
Qed.

(** X11: when every asset already holds its target share of the total,
    every action is HOLD and there is nothing to act on. *)
Theorem X11_balanced_portfolio (assets : list Asset) :
  (forall a, In a assets ->
     currentValue a = sumR (map currentValue assets) * targetAllocation a / 100) ->
  Forall (fun x => action x = HOLD) (actions (calculations assets)) /\
  actionableItems (calculations assets) = [].
Proof.
  intros Hbal.
  assert (Hhold : Forall (fun x => action x = HOLD) (actions (calculations assets))).
  { rewrite actions_map. apply Forall_forall. intros x Hx.
    apply in_map_iff in Hx. destruct Hx as (a & <- & Ha).
    cbn [action]. apply actionOf_hold_iff.
    rewrite totalValue_sum, <- (Hbal a Ha).
    replace (currentValue a - currentValue a) with 0 by ring. rewrite Rabs_R0. lra. }
  split; [exact Hhold | ].
  rewrite actionableItems_filter.
  induction Hhold as [| x l Hx _ IH]; [reflexivity | ].
  simpl. rewrite Hx. simpl. exact IH.
Qed.

Lemma X11_balanced_portfolio_witness :
  actionableItems (calculations
    [ mkAsset "1" "Stocks" 150 75; mkAsset "2" "Bonds" 50 25 ]) = [].
Proof.
  apply X11_balanced_portfolio.
  intros a [<- | [<- | []]]; simpl; lra.
Defined.

End PortfolioExtras.

Module PieChartExtras.
Import Rebalancer RebalancerFacts Portfolio.

Lemma Rgtb_true (x y : R) : Rgtb x y = true <-> y < x.
Proof.
  unfold Rgtb. destruct (Rlt_dec y x); split; intros H;
    try assumption; try reflexivity; try discriminate; contradiction.
Qed.

Lemma Rgtb_false (x y : R) : Rgtb x y = false <-> x <= y.
Proof.
  unfold Rgtb. destruct (Rlt_dec y x); split; intros H;
    try reflexivity; try discriminate; lra.
Qed.

Lemma sum_positive_part (f : Asset -> R) (l : list Asset) :
  (forall a, In a l -> 0 <= f a) ->
  sumR (map f (filter (fun a => Rgtb (f a) 0) l)) = sumR (map f l).
Proof.
  induction l as [| a l IH]; intros Hpos; [reflexivity | ].
  simpl. destruct (Rgtb (f a) 0) eqn:E; simpl.
  - rewrite IH; [reflexivity | ]. intros b Hb. apply Hpos. right. exact Hb.
  - apply Rgtb_false in E. assert (Ha : 0 <= f a) by (apply Hpos; left; reflexivity).
    rewrite IH; [lra | ]. intros b Hb. apply Hpos. right. exact Hb.
Qed.

Lemma filter_none {A : Type} (f : A -> bool) (l : list A) :
  (forall a, f a = false) -> filter f l = [].
Proof.
  intros Hf. induction l as [| a l IH]; [reflexivity | ].
  simpl. rewrite Hf. exact IH.
Qed.

Lemma pie_slices (l : list Asset) :
  Forall (fun a => 0 < currentValue a) l ->
  Forall2 (fun a d =>
             value d = currentValue a /\ 0 < value d /\
             (Rebalancer.name a = EmptyString -> Portfolio.name d = "Unnamed"%string) /\
             (Rebalancer.name a <> EmptyString -> Portfolio.name d = Rebalancer.name a))
          l (map (fun a => mkDatum (displayName a) (currentValue a)) l).
Proof.
  induction 1 as [| a l Ha _ IH]; simpl; [constructor | ].
  constructor; [ | exact IH].
  cbn [value Portfolio.name]. unfold displayName.
  split; [reflexivity | split; [exact Ha | split]].
  - intros He. rewrite He. reflexivity.
  - intros Hne. apply String.eqb_neq in Hne. rewrite Hne. reflexivity.
Qed.

(** X12: the current-holdings pie has one slice for each asset whose
    currentValue is positive, in the order of the assets; a slice carries
    the asset's currentValue and the asset's name, or 'Unnamed' when that
    name is empty; and when no asset has a negative currentValue the slices
    add up to totalValue. *)
Theorem X12_current_pie (assets : list Asset) :
  let shown := filter (fun a => Rgtb (currentValue a) 0) assets in
  (forall a, In a shown <-> In a assets /\ 0 < currentValue a) /\
  Forall2 (fun a d =>
             value d = currentValue a /\ 0 < value d /\
             (Rebalancer.name a = EmptyString -> Portfolio.name d = "Unnamed"%string) /\
             (Rebalancer.name a <> EmptyString -> Portfolio.name d = Rebalancer.name a))
          shown (currentData assets) /\
  ((forall a, In a assets -> 0 <= currentValue a) ->
   sumR (map value (currentData assets)) = totalValue (calculations assets)).
Proof.
  cbv zeta.
  assert (Hin : forall a, In a (filter (fun a => Rgtb (currentValue a) 0) assets)
                          <-> In a assets /\ 0 < currentValue a).
  { intros a. rewrite filter_In, Rgtb_true. reflexivity. }
  split; [exact Hin | split].
  - unfold currentData. apply pie_slices.
    apply Forall_forall. intros a Ha. apply Hin in Ha. apply Ha.
  - intros Hpos. unfold currentData. rewrite map_map.
    transitivity (sumR (map currentValue
                    (filter (fun a => Rgtb (currentValue a) 0) assets)));
      [reflexivity | ].
    rewrite (sum_positive_part currentValue assets Hpos), totalValue_sum. reflexivity.
Qed.

Lemma X12_current_pie_witness :
  sumR (map value (currentData
    [ mkAsset "1" "Stocks" 150 75; mkAsset "2" "" 50 25 ]))
  = totalValue (calculations [ mkAsset "1" "Stocks" 150 75; mkAsset "2" "" 50 25 ]).
Proof.
  apply X12_current_pie. intros a [<- | [<- | []]]; simpl; lra.
Defined.

(** X13: the target pie is empty when totalValue is not positive; when it
    is positive and no targetAllocation is negative, its slices add up to
    totalValue * totalAllocation / 100. *)
Theorem X13_target_pie (assets : list Asset) :
  let rep := calculations assets in
  (totalValue rep <= 0 -> targetData assets = []) /\
  (0 < totalValue rep -> (forall a, In a assets -> 0 <= targetAllocation a) ->
   sumR (map value (targetData assets)) = totalValue rep * totalAllocation rep / 100).
Proof.
  cbv zeta. split.
  - intros Hle. unfold targetData. apply Rgtb_false in Hle. rewrite Hle.
    rewrite filter_none; [reflexivity | ]. intros a. apply andb_false_r.
  - intros Hpos Halloc. unfold targetData. apply Rgtb_true in Hpos. rewrite Hpos.
    rewrite map_map. cbn [value].
    rewrite (filter_ext (fun a => Rgtb (targetAllocation a) 0 && true)
                        (fun a => Rgtb (targetAllocation a) 0))
      by (intros a; apply andb_true_r).
    set (tv := totalValue (calculations assets)).
    transitivity (tv * sumR (map targetAllocation
                    (filter (fun a => Rgtb (targetAllocation a) 0) assets)) / 100).
    + apply sum_scaled.
    + rewrite (sum_positive_part targetAllocation assets Halloc), totalAllocation_sum.
      reflexivity.
Qed.

Lemma X13_target_pie_witness :
  targetData [ mkAsset "1" "Stocks" 0 75; mkAsset "2" "" 0 25 ] = [] /\
  sumR (map value (targetData [ mkAsset "1" "Stocks" 150 75; mkAsset "2" "" 50 25 ]))
  = totalValue (calculations [ mkAsset "1" "Stocks" 150 75; mkAsset "2" "" 50 25 ])
    * totalAllocation (calculations [ mkAsset "1" "Stocks" 150 75; mkAsset "2" "" 50 25 ])
    / 100.
Proof.
  split.
  - apply X13_target_pie. rewrite totalValue_sum. simpl. lra.
  - apply X13_target_pie.
    + rewrite totalValue_sum. simpl. lra.
    + intros a [<- | [<- | []]]; simpl; lra.
Defined.

End PieChartExtras.

Module AssetListExtras.
Import Rebalancer RebalancerFacts Portfolio.

Lemma sumR_append (l1 l2 : list R) : sumR (l1 ++ l2) = sumR l1 + sumR l2.
Proof. induction l1 as [| y l IH]; simpl; [ring | rewrite IH; ring]. Qed.

Lemma actionOf_zero : actionOf 0 = HOLD.
Proof.
  unfold actionOf. destruct (Rlt_dec 0.01 0); [lra | ].
  destruct (Rlt_dec 0 (-0.01)); [lra | reflexivity].
Qed.

Lemma totalValue_addAsset (now : string) (assets : list Asset) :
  totalValue (calculations (addAsset now assets)) = totalValue (calculations assets).
Proof.
  rewrite !totalValue_sum. unfold addAsset. rewrite map_app, sumR_append. simpl. ring.
Qed.

Lemma totalAllocation_addAsset (now : string) (assets : list Asset) :
  totalAllocation (calculations (addAsset now assets))
  = totalAllocation (calculations assets).
Proof.
  rewrite !totalAllocation_sum. unfold addAsset. rewrite map_app, sumR_append. simpl. ring.
Qed.

(** X14: adding an asset (empty name, nothing held, no target) leaves both
    totals and the validity flag as they were, leaves every earlier action
    as it was, and the new asset's own action is a HOLD with target 0. *)
Theorem X14_add_asset (now : string) (assets : list Asset) :
  let before := calculations assets in
  let after := calculations (addAsset now assets) in
  totalValue after = totalValue before /\
  totalAllocation after = totalAllocation before /\
  isValid after = isValid before /\
  actions after = actions before ++ [mkAction (mkAsset now "" 0 0) 0 0 HOLD] /\
  actionableItems after = actionableItems before.
Proof.
  cbv zeta.
  pose proof (totalValue_addAsset now assets) as Htv.
  pose proof (totalAllocation_addAsset now assets) as Hta.
  assert (Hact : actions (calculations (addAsset now assets))
                 = actions (calculations assets) ++ [mkAction (mkAsset now "" 0 0) 0 0 HOLD]).
  { rewrite !actions_map, Htv. unfold addAsset. rewrite map_app. f_equal.
    cbn [map targetAllocation currentValue].
    replace (totalValue (calculations assets) * 0 / 100) with 0 by lra.
    replace (0 - 0) with 0 by lra. rewrite actionOf_zero. reflexivity. }
  split; [exact Htv | split; [exact Hta | split; [ | split; [exact Hact | ]]]].
  - destruct (isValid (calculations (addAsset now assets))) eqn:E1;
      destruct (isValid (calculations assets)) eqn:E2; try reflexivity.
    + apply isValid_iff in E1. rewrite Hta in E1. apply isValid_iff in E1. congruence.
    + apply isValid_iff in E2. rewrite <- Hta in E2. apply isValid_iff in E2. congruence.
  - change (filter (fun a => negb (isHold (action a)))
                   (actions (calculations (addAsset now assets)))
            = filter (fun a => negb (isHold (action a))) (actions (calculations assets))).
    rewrite Hact, filter_app. simpl. apply app_nil_r.
Qed.

Lemma removeAsset_keeps (id0 : string) (assets : list Asset) :
  Forall (fun a => id a <> id0) assets -> removeAsset id0 assets = assets.
Proof.
  intros H. unfold removeAsset. induction H as [| a l Ha _ IH]; [reflexivity | ].
  simpl. apply String.eqb_neq in Ha. rewrite Ha. simpl. rewrite IH. reflexivity.
Qed.

(** X15: removeAsset removes every asset that carries the id and keeps the
    others in order; an id that no asset carries removes nothing; and
    removing the id just added, when it was fresh, gives the list back. *)
Theorem X15_remove_asset (id0 : string) (assets : list Asset) :
  Forall (fun a => id a <> id0) (removeAsset id0 assets) /\
  (forall a, In a (removeAsset id0 assets) <-> In a assets /\ id a <> id0) /\
  (Forall (fun a => id a <> id0) assets ->
   removeAsset id0 assets = assets /\
   removeAsset id0 (addAsset id0 assets) = assets).
Proof.
  assert (Hin : forall a, In a (removeAsset id0 assets) <-> In a assets /\ id a <> id0).
  { intros a. unfold removeAsset. rewrite filter_In, negb_true_iff, String.eqb_neq.
    reflexivity. }
  split; [ | split; [exact Hin | ]].
  - apply Forall_forall. intros a Ha. apply Hin in Ha. apply Ha.
  - intros Hfresh. split; [apply removeAsset_keeps; exact Hfresh | ].
    unfold removeAsset, addAsset. rewrite filter_app. simpl.
    rewrite String.eqb_refl. simpl. rewrite app_nil_r.
    apply removeAsset_keeps. exact Hfresh.
Qed.

Lemma X15_remove_asset_witness :
  removeAsset "9" (addAsset "9" [ mkAsset "1" "Stocks" 150 75; mkAsset "2" "Bonds" 50 25 ])
  = [ mkAsset "1" "Stocks" 150 75; mkAsset "2" "Bonds" 50 25 ].
Proof.
  apply (X15_remove_asset "9" [ mkAsset "1" "Stocks" 150 75; mkAsset "2" "Bonds" 50 25 ]).
  repeat constructor; simpl; discriminate.
Defined.

(** X16: removing an id lowers totalValue by exactly the currentValue of
    the assets that carried it. *)
Theorem X16_remove_lowers_total (id0 : string) (assets : list Asset) :
  totalValue (calculations (removeAsset id0 assets))
  = totalValue (calculations assets)
    - sumR (map currentValue (filter (fun a => String.eqb (id a) id0) assets)).
Proof.
  rewrite !totalValue_sum. unfold removeAsset.
  induction assets as [| a l IH]; simpl; [ring | ].
  destruct (String.eqb (id a) id0); simpl; rewrite IH; ring.
Qed.





End AssetListExtras.

Module SampleRun.
Import MonteCarlo MonteCarloSpec MonteCarloFacts.

Lemma halves_fair_source : fair halves.
Proof. intros n. exists n. split; [lia | unfold halves; lra]. Qed.

Lemma smallRun_returns :
  exists fuel res g', runMonteCarloSimulation fuel smallRun halves = Some (res, g').
Proof.
  destruct (runMonteCarloSimulation_converges smallRun halves halves_fair_source)
    as (res & g' & (f & H)).
  exists f, res, g'. apply H. lia.
Qed.

End SampleRun.

Module SimulatorExtras.
Import MonteCarlo MonteCarloSpec MonteCarloExtraSpec MonteCarloFacts SampleRun.

Lemma discountedPayoff_nonneg (p : McParams) (path : list R) :
  0 <= discountedPayoff p path.
Proof.
  unfold discountedPayoff, discounted, payoffOf.
  apply Rmult_le_pos; [ | left; apply exp_pos].
  destruct (optionType p); apply Rmax_r.
Qed.

Lemma sumR_nonneg (l : list R) : Forall (fun x => 0 <= x) l -> 0 <= sumR l.
Proof. induction 1 as [| x l Hx _ IH]; simpl; lra. Qed.

Lemma payoffs_nonneg (p : McParams) (paths : list (list R)) :
  Forall (fun x => 0 <= x) (map (discountedPayoff p) paths).
Proof.
  apply Forall_forall. intros x Hx. apply in_map_iff in Hx.
  destruct Hx as (path & <- & _). apply discountedPayoff_nonneg.
Qed.

Lemma nth_nonneg (l : list R) (i : nat) :
  Forall (fun x => 0 <= x) l -> 0 <= nth i l 0.
Proof.
  intros H. destruct (Nat.lt_ge_cases i (length l)) as [Hlt | Hge].
  - rewrite Forall_forall in H. apply H. apply nth_In. exact Hlt.
  - rewrite nth_overflow by exact Hge. lra.
Qed.

Lemma INR_pos (n : nat) : (0 < n)%nat -> 0 < INR n.
Proof. intros H. apply lt_0_INR. exact H. Qed.

(** X18: a run with N > 0 never reports a negative price, its in-the-money
    probability lies between 0 and 100, and its value at risk does not
    exceed the price. *)
Theorem X18_result_ranges (fuel : nat) (p : McParams) (g : rng)
        (res : SimulationResult) (g' : rng) :
  (0 < iterations p)%nat ->
  runMonteCarloSimulation fuel p g = Some (res, g') ->
  0 <= optionPrice res /\
  0 <= inTheMoneyProbability res <= 100 /\
  valueAtRisk res <= optionPrice res.
Proof.
  intros HN H. apply runMonteCarloSimulation_spec in H. destruct H as (paths & Hrun).
  destruct Hrun as [(Hlen & _) Hprice _ Hitm Hvar _].
  pose proof (INR_pos _ HN) as HNr.
  pose proof (sumR_nonneg _ (payoffs_nonneg p paths)) as Hsum.
  split; [ | split].
  - rewrite Hprice. apply Rmult_le_pos; [exact Hsum | left; apply Rinv_0_lt_compat; exact HNr].
  - rewrite Hitm.
    assert (Hc : 0 <= INR (length (filter (inTheMoney p) paths)) <= INR (iterations p)).
    { split; [apply pos_INR | ]. apply le_INR. rewrite <- Hlen. apply filter_length_le. }
    set (c := INR (length (filter (inTheMoney p) paths))) in *.
    assert (Hq : 0 <= c / INR (iterations p) <= 1).
    { split.
      - apply Rmult_le_pos; [lra | left; apply Rinv_0_lt_compat; exact HNr].
      - apply (Rmult_le_reg_r (INR (iterations p))); [exact HNr | ].
        unfold Rdiv. rewrite Rmult_assoc, Rinv_l by lra. lra. }
    lra.
  - rewrite Hvar.
    assert (H5 : 0 <= nth (Z.to_nat (Math_floor (INR (iterations p) * 0.05)))
                          (sortAscending (map (discountedPayoff p) paths)) 0).
    { apply nth_nonneg.
      apply (Permutation_Forall (sortAscending_perm _)). apply payoffs_nonneg. }
    lra.
Qed.

Lemma X18_result_ranges_witness :
  exists fuel res g',
    runMonteCarloSimulation fuel smallRun halves = Some (res, g') /\
    0 <= optionPrice res /\
    0 <= inTheMoneyProbability res <= 100 /\
    valueAtRisk res <= optionPrice res.
Proof.
  destruct smallRun_returns as (fuel & res & g' & Hrun).
  exists fuel, res, g'. split; [exact Hrun | ].
  apply (X18_result_ranges fuel smallRun halves res g'); [simpl; lia | exact Hrun].
Defined.

(** X20: a run keeps exactly min(N, 20) paths for display. *)
Theorem X20_visual_count (fuel : nat) (p : McParams) (g : rng)
        (res : SimulationResult) (g' : rng) :
  runMonteCarloSimulation fuel p g = Some (res, g') ->
  length (visualPaths res) = Nat.min (iterations p) 20.
Proof.
  intros H. apply runMonteCarloSimulation_spec in H. destruct H as (paths & Hrun).
  destruct Hrun as [_ _ _ _ _ (count & Hvis)].
  cbv zeta in Hvis. rewrite step_eq in Hvis. destruct Hvis as (Hin & Hout & Heq).
  rewrite Heq, length_firstn, strided_length.
  set (N := iterations p) in *.
  pose proof (Nat.div_mod_eq N 20) as Hdm.
  pose proof (Nat.mod_upper_bound N 20 ltac:(lia)) as Hmod.
  destruct (Nat.lt_ge_cases N 20) as [Hsmall | Hlarge].
  - assert (Hq : (N / 20 = 0)%nat) by (apply Nat.div_small; exact Hsmall).
    rewrite Hq in *. change (Nat.max 1 0) with 1%nat in *.
    destruct count as [| c]; [lia | ].
    specialize (Hin c ltac:(lia)). lia.
  - assert (Hq : (1 <= N / 20)%nat) by lia.
    replace (Nat.max 1 (N / 20)) with (N / 20)%nat in * by lia.
    destruct (Nat.lt_ge_cases count 20) as [Hc | Hc]; [ | lia].
    assert (count * (N / 20) <= 19 * (N / 20))%nat by (apply Nat.mul_le_mono_r; lia).
    lia.
Qed.

Lemma X20_visual_count_witness :
  exists fuel res g',
    runMonteCarloSimulation fuel smallRun halves = Some (res, g') /\
    length (visualPaths res) = 20%nat.
Proof.
  destruct smallRun_returns as (fuel & res & g' & Hrun).
  exists fuel, res, g'. split; [exact Hrun | ].
  apply (X20_visual_count fuel smallRun halves res g' Hrun).
Defined.

End SimulatorExtras.

Module RiskExtras.
Import MonteCarlo MonteCarloSpec MonteCarloExtraSpec MonteCarloFacts RunFacts SampleRun.






Lemma exceeds_true (x y : R) : exceeds x y = true <-> y < x.
Proof.
  unfold exceeds. destruct (Rlt_dec y x); split; intros H;
    try assumption; try reflexivity; try discriminate; contradiction.
Qed.





Lemma inTheMoney_call (p : McParams) (path : list R) :
  optionType p = call -> inTheMoney p path = exceeds (terminal path) (K p).
Proof.
  intros Ht. unfold inTheMoney, payoffOf, exceeds, terminal. rewrite Ht.
  set (ST := nth (length path - 1) path 0).
  unfold Rmax. destruct (Rle_dec (ST - K p) 0);
    destruct (Rlt_dec 0 _); destruct (Rlt_dec (K p) ST); try reflexivity; lra.
Qed.

Lemma inTheMoney_put (p : McParams) (path : list R) :
  optionType p = put -> inTheMoney p path = exceeds (K p) (terminal path).
Proof.
  intros Ht. unfold inTheMoney, payoffOf, exceeds, terminal. rewrite Ht.
  set (ST := nth (length path - 1) path 0).
  unfold Rmax. destruct (Rle_dec (K p - ST) 0);
    destruct (Rlt_dec 0 _); destruct (Rlt_dec ST (K p)); try reflexivity; lra.
Qed.

(** X22: for a run with N > 0, inTheMoneyProbability is 100 times the
    share, among the N paths the run simulated, of those whose last point is
    above the strike, for a call, or below it, for a put; a path that ends
    exactly at the strike is not counted. *)
Theorem X22_in_the_money_share (fuel : nat) (p : McParams) (g : rng)
        (res : SimulationResult) (g' : rng) :
  (0 < iterations p)%nat ->
  runMonteCarloSimulation fuel p g = Some (res, g') ->
  exists paths,
    simulatedPaths fuel p (iterations p) g = Some (paths, g') /\
    length paths = iterations p /\
    inTheMoneyProbability res
    = INR (length (filter (fun path =>
                             match optionType p with
                             | call => exceeds (terminal path) (K p)
                             | put => exceeds (K p) (terminal path)
                             end) paths))
      / INR (iterations p) * 100.
Proof.
  intros _ H. apply runMonteCarloSimulation_pinned in H.
  destruct H as (paths & Hsim & Hrun).
  destruct Hrun as [(Hlen & _) _ _ Hitm _ _].
  exists paths. split; [exact Hsim | split; [exact Hlen | ]]. rewrite Hitm.
  do 4 f_equal. apply filter_ext. intros path.
  destruct (optionType p) eqn:Ht; [apply inTheMoney_call | apply inTheMoney_put]; exact Ht.
Qed.

Lemma X22_in_the_money_share_witness :
  exists fuel res g' paths,
    runMonteCarloSimulation fuel smallRun halves = Some (res, g') /\
    simulatedPaths fuel smallRun 40 halves = Some (paths, g') /\
    inTheMoneyProbability res
    = INR (length (filter (fun path => exceeds (terminal path) 100) paths)) / INR 40 * 100.
Proof.
  destruct smallRun_returns as (fuel & res & g' & Hrun).
  destruct (X22_in_the_money_share fuel smallRun halves res g' ltac:(simpl; lia) Hrun)
    as (paths & Hsim & _ & H).
  exists fuel, res, g', paths. split; [exact Hrun | split; [exact Hsim | exact H]].
Defined.

End RiskExtras.

Module PathExtras.
Import MonteCarlo MonteCarloSpec MonteCarloExtraSpec MonteCarloFacts RunFacts SampleRun.

Lemma stepFactor_no_volatility (r dt Z : R) : stepFactor r 0 dt Z = exp (r * dt).
Proof. unfold stepFactor. f_equal. ring. Qed.

(** X23: with sigma = 0, T not negative and at least one step, the random
    draws do not matter: point i of the path is S0 e^(r dt i) and the path
    ends at S0 e^(rT). *)
Theorem X23_no_volatility_path (fuel : nat) (S0 r T : R) (steps : nat)
        (g : rng) (path : list R) (g' : rng) :
  0 <= T -> (1 <= steps)%nat ->
  simulateGBMPath fuel S0 r 0 T steps g = Some (path, g') ->
  (forall i, (i <= steps)%nat -> nth i path 0 = S0 * exp (r * (T / INR steps) * INR i)) /\
  terminal path = S0 * exp (r * T).
Proof.
  intros _ Hs H. apply simulateGBMPath_spec in H.
  destruct H as ((Hlen & H0 & Hstep & _) & _).
  assert (Hpt : forall i, (i <= steps)%nat ->
                nth i path 0 = S0 * exp (r * (T / INR steps) * INR i)).
  { induction i as [| i IH]; intros Hi.
    - rewrite H0. simpl INR. rewrite Rmult_0_r, exp_0. ring.
    - destruct (Hstep (S i) ltac:(lia)) as (Z & HZ).
      rewrite HZ, stepFactor_no_volatility.
      replace (S i - 1)%nat with i by lia. rewrite IH by lia.
      rewrite S_INR, Rmult_assoc, <- exp_plus. f_equal. f_equal. ring. }
  split; [exact Hpt | ].
  unfold terminal. rewrite Hlen.
  replace (steps + 1 - 1)%nat with steps by lia.
  rewrite Hpt by lia. f_equal. f_equal.
  assert (Hn : 0 < INR steps) by (apply lt_0_INR; lia).
  field. lra.
Qed.

Lemma X23_no_volatility_path_witness :
  exists fuel path g',
    simulateGBMPath fuel 100 0.05 0 1 2 halves = Some (path, g') /\
    terminal path = 100 * exp (0.05 * 1).
Proof.
  destruct (simulateGBMPath_converges 100 0.05 0 1 2 halves halves_fair_source)
    as (path & g' & (f & H)).
  exists f, path, g'. split; [apply H; lia | ].
  apply (X23_no_volatility_path f 100 0.05 1 2 halves path g'); [lra | lia | apply H; lia].
Defined.





(** X25: the Gaussian generator returns, given enough fuel, exactly when
    the source holds two answers different from 0, one after the other; a
    source that answers 0 for ever keeps it looping. *)
Theorem X25_generator_returns (g : rng) :
  (exists fuel z g', generateGaussianRandom fuel g = Some (z, g')) <->
  (exists k1 k2, g k1 <> 0 /\ g (S k1 + k2)%nat <> 0).
Proof.
  split.
  - intros (fuel & z & g' & H). apply generateGaussianRandom_spec in H.
    destruct H as (k1 & k2 & Hn1 & Hn2 & _). exists k1, k2. split; assumption.
  - intros (k1 & k2 & Hn1 & Hn2).
    destruct (first_nonzero g k1 Hn1) as (j1 & Hj1 & Hj1n & Hj1z).
    assert (Hn2' : shift (S j1) g (S k1 + k2 - S j1)%nat <> 0).
    { unfold shift. replace (S j1 + (S k1 + k2 - S j1))%nat with (S k1 + k2)%nat by lia.
      exact Hn2. }
    destruct (first_nonzero (shift (S j1) g) _ Hn2') as (j2 & _ & Hj2n & Hj2z).
    exists (Nat.max (S j1) (S j2)). eexists. eexists.
    unfold generateGaussianRandom, bind.
    rewrite (whileZero_runs j1 g) by (try assumption; lia).
    rewrite (whileZero_runs j2 (shift (S j1) g)) by (try assumption; lia).
    reflexivity.
Qed.

Lemma X25_generator_returns_witness :
  exists fuel z g', generateGaussianRandom fuel halves = Some (z, g').
Proof.
  apply (X25_generator_returns halves). exists 0%nat, 0%nat. unfold halves. lra.
Defined.

End PathExtras.
